(** * effect-json: the lexical layer

    A shallow embedding of the string utilities ([utils/string.ts]:
    [buildSnippet], [getLineColumn], [stripComments]) and of the streaming
    line buffer of the JSON Lines backend ([backends/jsonLines.ts]:
    [LineBuffer.processChunk], [LineBuffer.flush]), with the properties of
    the specification stated and proved over them.

    A JavaScript string is a finite sequence of UTF-16 code units; it is
    modelled as a list of code units.  Numbers (positions, line counters)
    are integers. *)

From Stdlib Require Import Ascii String.
From Stdlib Require Import List ZArith NArith Lia Bool.
Import ListNotations.

Local Open Scope Z_scope.

(** ** Strings *)

(** A UTF-16 code unit. *)
Definition char : Type := N.

(** A JavaScript string. *)
Definition str : Type := list char.

(** [s.length]. *)
Definition len (s : str) : Z := Z.of_nat (List.length s).

Definition LF : char := 10%N.          (* "\n" *)
Definition CR : char := 13%N.          (* "\r" *)
Definition SPACE : char := 32%N.       (* " " *)
Definition DQUOTE : char := 34%N.      (* the double quote *)
Definition STAR : char := 42%N.        (* "*" *)
Definition SLASH : char := 47%N.       (* "/" *)
Definition BACKSLASH : char := 92%N.   (* "\\" *)
Definition CARET : char := 94%N.       (* "^" *)

(** The code units of an ASCII literal. *)
Fixpoint lit (s : String.string) : str :=
  match s with
  | EmptyString => []
  | String a rest => N_of_ascii a :: lit rest
  end.

Arguments lit s%_string.

(** [c === d] on code units. *)
Definition ceq (c d : char) : bool := N.eqb c d.

(** ECMAScript WhiteSpace and LineTerminator code points, the ones
    [String.prototype.trim] removes. *)
Definition isWhiteSpace (c : char) : bool :=
  (N.leb 9 c && N.leb c 13)            (* TAB, LF, VT, FF, CR *)
  || N.eqb c 32                        (* SPACE *)
  || N.eqb c 160                       (* NO-BREAK SPACE *)
  || N.eqb c 5760                      (* U+1680 *)
  || (N.leb 8192 c && N.leb c 8202)    (* U+2000 .. U+200A *)
  || N.eqb c 8232 || N.eqb c 8233      (* U+2028, U+2029 *)
  || N.eqb c 8239                      (* U+202F *)
  || N.eqb c 8287                      (* U+205F *)
  || N.eqb c 12288                     (* U+3000 *)
  || N.eqb c 65279.                    (* U+FEFF *)

Fixpoint trimStart (s : str) : str :=
  match s with
  | [] => []
  | c :: rest => if isWhiteSpace c then trimStart rest else s
  end.

Definition trimEnd (s : str) : str := rev (trimStart (rev s)).

(** [s.trim()]. *)
Definition trim (s : str) : str := trimEnd (trimStart s).

(** [s.split("\n")]: the pieces between the line feeds; never empty. *)
Fixpoint split (s : str) : list str :=
  match s with
  | [] => [[]]
  | c :: rest =>
      if ceq c LF then [] :: split rest
      else match split rest with
           | l :: ls => (c :: l) :: ls
           | [] => [[c]]
           end
  end.

(** [s.lastIndexOf("\n")], counting from index [i] for the head of [s];
    [-1] when there is none. *)
Fixpoint lastIndexOfFrom (s : str) (i : Z) : Z :=
  match s with
  | [] => -1
  | c :: rest =>
      let r := lastIndexOfFrom rest (i + 1) in
      if r =? -1 then (if ceq c LF then i else -1) else r
  end.

Definition lastIndexOf (s : str) : Z := lastIndexOfFrom s 0.

(** Relative index of [slice]: negative counts from the end, and the
    result is clamped to the string. *)
Definition relIndex (n i : Z) : Z :=
  if i <? 0 then Z.max (n + i) 0 else Z.min i n.

(** [s.slice(a, b)]. *)
Definition slice (s : str) (a b : Z) : str :=
  let from := relIndex (len s) a in
  let to := relIndex (len s) b in
  firstn (Z.to_nat (to - from)) (skipn (Z.to_nat from) s).

(** [s.slice(a)]. *)
Definition sliceFrom (s : str) (a : Z) : str :=
  skipn (Z.to_nat (relIndex (len s) a)) s.

(** [s.repeat(count)]; a negative count raises a RangeError ([None]). *)
Definition repeat (s : str) (count : Z) : option str :=
  if count <? 0 then None
  else Some (concat (List.repeat s (Z.to_nat count))).

(** ** The line buffer of the streaming JSON Lines parser *)

(** An emitted line, [{ line, lineNumber }]. *)
Module Line.
Record t : Type := mk { line : str; lineNumber : Z }.
End Line.

Module LineBuffer.

(** The two private fields of the class. *)
Record t : Type := mk { buffer : str; lineNumber : Z }.

(** [new LineBuffer()]. *)
Definition new : t := {| buffer := []; lineNumber := 0 |}.

(** The [for (const line of splitLines)] loop of [processChunk]: a line
    whose trimmed length is positive advances the counter and is pushed
    as it is; the result is the lines pushed and the counter reached. *)
Fixpoint pushLines (splitLines : list str) (lineNumber : Z)
  : list Line.t * Z :=
  match splitLines with
  | [] => ([], lineNumber)
  | line :: rest =>
      if 0 <? len (trim line) then
        let lineNumber := lineNumber + 1 in
        let (lines, n) := pushLines rest lineNumber in
        (Line.mk line lineNumber :: lines, n)
      else pushLines rest lineNumber
  end.

(** [processChunk(chunk)]: the buffer after the call and the lines
    returned. *)
Definition processChunk (b : t) (chunk : str) : t * list Line.t :=
  let buffer := buffer b ++ chunk in
  let lastNewlineIndex := lastIndexOf buffer in
  if lastNewlineIndex =? -1 then
    ({| buffer := buffer; lineNumber := lineNumber b |}, [])
  else
    let completeText := slice buffer 0 lastNewlineIndex in
    let buffer := sliceFrom buffer (lastNewlineIndex + 1) in
    let (lines, n) := pushLines (split completeText) (lineNumber b) in
    ({| buffer := buffer; lineNumber := n |}, lines).

(** [flush()]: the counter advances, the buffer is left as it is. *)
Definition flush (b : t) : t * list Line.t :=
  if 0 <? len (trim (buffer b)) then
    let lineNumber := lineNumber b + 1 in
    ({| buffer := buffer b; lineNumber := lineNumber |},
     [Line.mk (trim (buffer b)) lineNumber])
  else (b, []).

(** [processChunk] on each chunk in order, from buffer [b]: the final
    buffer and all the lines returned, in order. *)
Fixpoint feed (b : t) (chunks : list str) : t * list Line.t :=
  match chunks with
  | [] => (b, [])
  | chunk :: rest =>
      let (b1, lines1) := processChunk b chunk in
      let (b2, lines2) := feed b1 rest in
      (b2, lines1 ++ lines2)
  end.

(** A whole stream on a fresh buffer: every chunk, then [flush]. *)
Definition run (chunks : list str) : list Line.t :=
  let (b, lines) := feed new chunks in
  lines ++ snd (flush b).

End LineBuffer.

(** ** Locating a position: [buildSnippet] and [getLineColumn] *)

(** The loop of [buildSnippet] over the remaining [lines], with
    [currentPos] the position of the first of them; falls through to
    [return input]. *)
Fixpoint buildSnippetLoop (input : str) (position : Z)
    (lines : list str) (currentPos : Z) : option str :=
  match lines with
  | [] => Some input
  | line :: rest =>
      let lineLength := len line in
      if currentPos + lineLength >=? position then
        let column := position - currentPos in
        match repeat [SPACE] column with
        | Some spaces => Some (line ++ [LF] ++ spaces ++ [CARET])
        | None => None
        end
      else buildSnippetLoop input position rest (currentPos + lineLength + 1)
  end.

(** [buildSnippet(input, position)]; [None] when [repeat] raises. *)
Definition buildSnippet (input : str) (position : Z) : option str :=
  buildSnippetLoop input position (split input) 0.

(** The result of [getLineColumn], [{ line, column }]. *)
Record LineColumn : Type := mkLineColumn { line : Z; column : Z }.

(** The loop of [getLineColumn] over the remaining [lines], the first of
    them being [lines[i]] at position [currentPos]; falls through to
    [return { line: 1, column: 1 }]. *)
Fixpoint getLineColumnLoop (position : Z)
    (lines : list str) (i currentPos : Z) : LineColumn :=
  match lines with
  | [] => {| line := 1; column := 1 |}
  | l :: rest =>
      let lineLength := len l in
      if currentPos + lineLength >=? position then
        {| line := i + 1; column := position - currentPos + 1 |}
      else getLineColumnLoop position rest (i + 1) (currentPos + lineLength + 1)
  end.

(** [getLineColumn(input, position)]. *)
Definition getLineColumn (input : str) (position : Z) : LineColumn :=
  getLineColumnLoop position (split input) 0 0.

(** ** Stripping comments: [stripComments] *)

(** The four flags of the scanner. *)
Record Flags : Type := mkFlags {
  inString : bool;
  inComment : bool;
  inMultilineComment : bool;
  escapeNext : bool
}.

(** The flags at the start of the scan. *)
Definition initFlags : Flags := mkFlags false false false false.

(** [nextChar === c], where [nextChar] is [undefined] at the end of the
    input. *)
Definition nextCharIs (rest : str) (c : char) : bool :=
  match rest with
  | nextChar :: _ => ceq nextChar c
  | [] => false
  end.

(** The [for] loop of [stripComments] on the input from index [i] on,
    [ch] being [input[i]]; the characters pushed on [result], in order.
    An [i++] in the body skips the next character. *)
Fixpoint scan (f : Flags) (input : str) : str :=
  match input with
  | [] => []
  | ch :: rest =>
      if escapeNext f then
        ch :: scan (mkFlags (inString f) (inComment f) (inMultilineComment f) false) rest
      else if negb (inString f) && negb (inComment f)
              && negb (inMultilineComment f) then
        if ceq ch DQUOTE then
          ch :: scan (mkFlags true (inComment f) (inMultilineComment f) (escapeNext f)) rest
        else if ceq ch SLASH && nextCharIs rest SLASH then
          match rest with
          | _ :: rest' =>
              scan (mkFlags (inString f) true (inMultilineComment f) (escapeNext f)) rest'
          | [] => []
          end
        else if ceq ch SLASH && nextCharIs rest STAR then
          match rest with
          | _ :: rest' =>
              scan (mkFlags (inString f) (inComment f) true (escapeNext f)) rest'
          | [] => []
          end
        else ch :: scan f rest
      else if inString f then
        if ceq ch BACKSLASH then
          ch :: scan (mkFlags (inString f) (inComment f) (inMultilineComment f) true) rest
        else if ceq ch DQUOTE then
          ch :: scan (mkFlags false (inComment f) (inMultilineComment f) (escapeNext f)) rest
        else ch :: scan f rest
      else if inComment f then
        if ceq ch LF then
          ch :: scan (mkFlags (inString f) false (inMultilineComment f) (escapeNext f)) rest
        else scan f rest
      else if inMultilineComment f then
        if ceq ch STAR && nextCharIs rest SLASH then
          match rest with
          | _ :: rest' =>
              scan (mkFlags (inString f) (inComment f) false (escapeNext f)) rest'
          | [] => []
          end
        else if ceq ch LF then ch :: scan f rest
        else scan f rest
      else scan f rest
  end.

(** [stripComments(input)]. *)
Definition stripComments (input : str) : str := scan initFlags input.

(** The flags as the scan can meet them: outside strings and comments,
    inside a string, inside a string after a backslash, inside a line
    comment, inside a block comment. *)
Definition normal : Flags := mkFlags false false false false.
Definition inStr : Flags := mkFlags true false false false.
Definition inStrEscaped : Flags := mkFlags true false false true.
Definition inLine : Flags := mkFlags false true false false.
Definition inBlock : Flags := mkFlags false false true false.

Inductive reachable : Flags -> Prop :=
  | reach_normal : reachable normal
  | reach_inStr : reachable inStr
  | reach_inStrEscaped : reachable inStrEscaped
  | reach_inLine : reachable inLine
  | reach_inBlock : reachable inBlock.

(** The flags with which a scan of the output resumes where the first
    scan stood with [f]: a comment of the input is gone from the output. *)
Definition resume (f : Flags) : Flags :=
  mkFlags (inString f) false false (escapeNext f).

(** ** What stripping comments means, by the specification

    A text is read as a sequence of plain characters, string literals,
    line comments and block comments.  String literals are copied, so a
    comment opener inside one stays; a line comment goes up to the end of
    its line, whose line feed stays; a block comment goes up to and with
    its closing star-slash, and only its line feeds stay. *)

(** The inside of a string literal: characters other than the quote and
    the backslash, and backslash escapes. *)
Inductive stringBody : str -> Prop :=
  | body_nil : stringBody []
  | body_char (c : char) (body : str) :
      c <> DQUOTE -> c <> BACKSLASH -> stringBody body ->
      stringBody (c :: body)
  | body_escape (c : char) (body : str) :
      stringBody body -> stringBody (BACKSLASH :: c :: body).

(** The text holds no star-slash. *)
Definition noBlockEnd (body : str) : Prop :=
  forall a b : str, body <> a ++ STAR :: SLASH :: b.

(** The line feeds of a text, all else dropped. *)
Definition lineFeedsOf (body : str) : str := filter (fun c => ceq c LF) body.

(** The text starts with a comment opener, slash-slash or slash-star. *)
Definition opensComment (s : str) : Prop :=
  exists rest, s = SLASH :: SLASH :: rest \/ s = SLASH :: STAR :: rest.

(** [Stripped input output]: [output] is [input] without its comments. *)
Inductive Stripped : str -> str -> Prop :=
  | stripped_end : Stripped [] []
  | stripped_plain (c : char) (rest out : str) :
      c <> DQUOTE -> ~ opensComment (c :: rest) ->
      Stripped rest out ->
      Stripped (c :: rest) (c :: out)
  | stripped_string (body rest out : str) :
      stringBody body ->
      Stripped rest out ->
      Stripped (DQUOTE :: body ++ DQUOTE :: rest) (DQUOTE :: body ++ DQUOTE :: out)
  | stripped_line (body rest out : str) :
      ~ In LF body ->
      Stripped rest out ->
      Stripped (SLASH :: SLASH :: body ++ LF :: rest) (LF :: out)
  | stripped_line_at_end (body : str) :
      ~ In LF body ->
      Stripped (SLASH :: SLASH :: body) []
  | stripped_block (body rest out : str) :
      noBlockEnd body ->
      Stripped rest out ->
      Stripped (SLASH :: STAR :: body ++ STAR :: SLASH :: rest)
               (lineFeedsOf body ++ out).

(** The inside of a string literal that the text ends in, unclosed. *)
Inductive openBody : str -> Prop :=
  | open_nil : openBody []
  | open_backslash : openBody [BACKSLASH]
  | open_char (c : char) (body : str) :
      c <> DQUOTE -> c <> BACKSLASH -> openBody body ->
      openBody (c :: body)
  | open_escape (c : char) (body : str) :
      openBody body -> openBody (BACKSLASH :: c :: body).

(** [Unclosed input]: read in the same way, [input] ends inside a string
    literal or inside a block comment. *)
Inductive Unclosed : str -> Prop :=
  | unclosed_string (body : str) :
      openBody body -> Unclosed (DQUOTE :: body)
  | unclosed_block (body : str) :
      noBlockEnd body -> Unclosed (SLASH :: STAR :: body)
  | unclosed_plain (c : char) (rest : str) :
      c <> DQUOTE -> ~ opensComment (c :: rest) ->
      Unclosed rest -> Unclosed (c :: rest)
  | unclosed_after_string (body rest : str) :
      stringBody body ->
      Unclosed rest -> Unclosed (DQUOTE :: body ++ DQUOTE :: rest)
  | unclosed_after_line (body rest : str) :
      ~ In LF body ->
      Unclosed rest -> Unclosed (SLASH :: SLASH :: body ++ LF :: rest)
  | unclosed_after_block (body rest : str) :
      noBlockEnd body ->
      Unclosed rest -> Unclosed (SLASH :: STAR :: body ++ STAR :: SLASH :: rest).

(** ** Auxiliary notions *)

(** The number of line feeds of a string. *)
Definition countLF (s : str) : nat := count_occ N.eq_dec s LF.

(** The characters that the lines take in their text, each with its
    line feed. *)
Fixpoint span (lines : list str) : Z :=
  match lines with
  | [] => 0
  | l :: rest => len l + 1 + span rest
  end.

(** The numbers [n+1, ..., n+k]. *)
Definition countFrom (n : Z) (k : nat) : list Z :=
  map (fun i => n + Z.of_nat i) (seq 1 k).

(** A star-slash occurs in the text. *)
Fixpoint hasBlockEnd (s : str) : bool :=
  match s with
  | [] => false
  | c :: rest => (ceq c STAR && nextCharIs rest SLASH) || hasBlockEnd rest
  end.

(** ** Sample texts *)

(** [{"id":1}] and [{"id":2}]. *)
Definition id1 : str := lit "{" ++ [DQUOTE] ++ lit "id" ++ [DQUOTE] ++ lit ":1}".
Definition id2 : str := lit "{" ++ [DQUOTE] ++ lit "id" ++ [DQUOTE] ++ lit ":2}".

(** Scenario E: [{"id":1}\n\n  \n{"id":2}\n]. *)
Definition scenarioE : str :=
  id1 ++ [LF] ++ [LF] ++ lit "  " ++ [LF] ++ id2 ++ [LF].

(** Scenario C: [{"id": 1, invalid}]. *)
Definition scenarioC : str :=
  lit "{" ++ [DQUOTE] ++ lit "id" ++ [DQUOTE] ++ lit ": 1, invalid}".

(** What the specification says of a position past the end of the text:
    the last line, and the column after its last character. *)
Definition lastLineLocation (input : str) : LineColumn :=
  {| line := Z.of_nat (length (split input));
     column := len (last (split input) []) + 1 |}.

(** Scenario A: [{"id": 1, // comment\n"name": "Paul"}], and what is
    left of it without the comment. *)
Definition scenarioA_head : str :=
  lit "{" ++ [DQUOTE] ++ lit "id" ++ [DQUOTE] ++ lit ": 1, ".
Definition scenarioA_tail : str :=
  [LF] ++ [DQUOTE] ++ lit "name" ++ [DQUOTE] ++ lit ": "
       ++ [DQUOTE] ++ lit "Paul" ++ [DQUOTE] ++ lit "}".
Definition scenarioA : str :=
  scenarioA_head ++ lit "// comment" ++ scenarioA_tail.
Definition scenarioA_stripped : str := scenarioA_head ++ scenarioA_tail.

(** Scenario B: [{"a": "http://x"}]. *)
Definition scenarioB : str :=
  lit "{" ++ [DQUOTE] ++ lit "a" ++ [DQUOTE] ++ lit ": "
          ++ [DQUOTE] ++ lit "http://x" ++ [DQUOTE] ++ lit "}".

(** A text with a string literal that holds both comment openers, a
    block comment over two lines and a line comment:
    ["/*//"/*a\nb*/1//c\n2], and what is left of it: ["/*//"\n1\n2]. *)
Definition mixedText : str :=
  DQUOTE :: lit "/*//" ++ DQUOTE ::
  SLASH :: STAR :: (lit "a" ++ [LF] ++ lit "b") ++ STAR :: SLASH ::
  lit "1" ++
  SLASH :: SLASH :: lit "c" ++ LF ::
  lit "2".
Definition mixedText_stripped : str :=
  DQUOTE :: lit "/*//" ++ DQUOTE :: [LF] ++ lit "1" ++ LF :: lit "2".

(** What the specification says of every line [r] that [processChunk]
    returns over the chunks: its text is trimmed and holds neither a
    carriage return nor a line feed. *)
Definition emitsTrimmedLines (chunks : list str) : Prop :=
  forall r : Line.t,
    In r (snd (LineBuffer.feed LineBuffer.new chunks)) ->
    Line.line r = trim (Line.line r)
    /\ ~ In CR (Line.line r) /\ ~ In LF (Line.line r).

(** ** The batch path of the JSON Lines parser *)

(** [input.replace(/\r\n/g, "\n")]: every carriage return that a line
    feed follows goes, from left to right. *)
Fixpoint replaceCRLF (input : str) : str :=
  match input with
  | [] => []
  | c :: rest =>
      if ceq c CR && nextCharIs rest LF then
        match rest with
        | _ :: rest' => LF :: replaceCRLF rest'
        | [] => []
        end
      else c :: replaceCRLF rest
  end.

(** The string holds white space only. *)
Definition allWhiteSpace (s : str) : bool := forallb isWhiteSpace s.

(** The test of the filters, [line.trim().length > 0]. *)
Definition nonBlank (line : str) : bool := 0 <? len (trim line).

(** [splitLines(input)]. *)
Definition splitLines (input : str) : list str :=
  let normalized := replaceCRLF input in
  filter nonBlank (split normalized).

(** [lines.map((line, index) => parseLine(line, index + 1))] from index
    [index] on: the line and the line number of each call. *)
Fixpoint numberLines (index : Z) (lines : list str) : list Line.t :=
  match lines with
  | [] => []
  | line :: rest => Line.mk line (index + 1) :: numberLines (index + 1) rest
  end.

(** The [parseLine] calls that [parseBatch] builds for an input string,
    in order. *)
Definition parseBatchLines (input : str) : list Line.t :=
  numberLines 0 (splitLines input).

(** [parseStream(input)] creates one [LineBuffer], which the stream it
    returns closes over, and evaluates [buffer.flush()] at once: it is
    the argument of [Effect.succeed], computed when the pipeline is
    built, before any chunk is processed.  This is the buffer as the
    call leaves it, and the lines of that [flush], which every run of
    the stream emits after the lines of its chunks. *)
Definition parseStreamCreated : LineBuffer.t * list Line.t :=
  LineBuffer.flush LineBuffer.new.

(** One run of the stream that [parseStream] returns, over the chunks of
    the input stream, on the buffer [b] as the call or the runs before
    have left it: the buffer after the run, and the lines that reach
    [parseLine], in order, in a run that goes to its end (a line that
    fails to parse ends the run there). *)
Definition parseStreamRun (b : LineBuffer.t) (chunks : list str)
  : LineBuffer.t * list Line.t :=
  let (b', lines) := LineBuffer.feed b chunks in
  (b', lines ++ snd parseStreamCreated).

(** The text that [flush] returns for what follows the last line feed:
    its trim, when that is not empty. *)
Definition flushedTail (tail : str) : list str :=
  if nonBlank tail then [trim tail] else [].

(** A line with its text trimmed. *)
Definition trimLine (r : Line.t) : Line.t :=
  Line.mk (trim (Line.line r)) (Line.lineNumber r).

(** The line without the carriage return at its end, if it has one. *)
Fixpoint chopCR (l : str) : str :=
  match l with
  | [] => []
  | c :: rest =>
      match rest with
      | [] => if ceq c CR then [] else [c]
      | _ :: _ => c :: chopCR rest
      end
  end.

(** The lines of a text as [splitLines] cuts them, before its filter:
    the lines at the line feeds, each but the last (the ones a line feed
    follows) without the carriage return at its end. *)
Definition normalizedLines (input : str) : list str :=
  map chopCR (removelast (split input)) ++ [last (split input) []].

(** [l] is [l'], or [l'] and a carriage return. *)
Definition upToCR (l' l : str) : Prop := l = l' \/ l = l' ++ [CR].

(** ** Writing JSON Lines: [stringifyBatch] and [stringifyStream]

    [JSON.stringify] is the platform's: it returns a string or
    [undefined], or throws. *)

Module JsonLines.

(** [JsonLinesStringifyOptions], with its optional [indent]. *)
Record JsonLinesStringifyOptions : Type := mkOptions { indent : option Z }.

(** [options?.indent ?? 0]. *)
Definition indentOf (options : option JsonLinesStringifyOptions) : Z :=
  match options with
  | Some o => match indent o with Some n => n | None => 0 end
  | None => 0
  end.

(** The text of an array element in [join], and of an operand of [+]
    with a string. *)
Definition joinText (x : option str) : str :=
  match x with Some s => s | None => [] end.
Definition plusText (x : option str) : str :=
  match x with Some s => s | None => lit "undefined" end.

(** [xs.join(sep)]. *)
Fixpoint join (sep : str) (xs : list (option str)) : str :=
  match xs with
  | [] => []
  | x :: rest =>
      match rest with
      | [] => joinText x
      | _ :: _ => joinText x ++ sep ++ join sep rest
      end
  end.

Section Stringify.

Variable Value : Type.
(** What [JSON.stringify] throws. *)
Variable Thrown : Type.
(** [JSON.stringify(value, null, indent)]. *)
Variable JSONstringify : Value -> Z -> Thrown + option str.
(** [error instanceof Error], [error.message] and [String(error)]. *)
Variable instanceofError : Thrown -> bool.
Variable messageOf : Thrown -> str.
Variable StringOf : Thrown -> str.

(** The fields of a [ParseError]. *)
Record ParseError : Type := mkParseError {
  message : str;
  line : Z;
  column : Z;
  snippet : str;
  cause : option Thrown
}.

(** [error instanceof Error ? error.message : String(error)]. *)
Definition errorMessage (error : Thrown) : str :=
  if instanceofError error then messageOf error else StringOf error.

(** The [catch] of both functions, with the prefix of its message. *)
Definition stringifyError (prefix : str) (error : Thrown) : ParseError :=
  {| message := prefix ++ errorMessage error;
     line := 1;
     column := 1;
     snippet := [];
     cause := if instanceofError error then Some error else None |}.

(** [valuesArray.map((value) => JSON.stringify(value, null, indent))]:
    the first throw ends it. *)
Fixpoint stringifyAll (valuesArray : list Value) (indent : Z)
  : Thrown + list (option str) :=
  match valuesArray with
  | [] => inr []
  | value :: rest =>
      match JSONstringify value indent with
      | inl error => inl error
      | inr line =>
          match stringifyAll rest indent with
          | inl error => inl error
          | inr lines => inr (line :: lines)
          end
      end
  end.

(** [stringifyBatch(values, options)]: the [ParseError] or the string of
    the effect. *)
Definition stringifyBatch (values : list Value)
    (options : option JsonLinesStringifyOptions) : ParseError + str :=
  let valuesArray := values in
  match valuesArray with
  | [] => inr []
  | _ :: _ =>
      match stringifyAll valuesArray (indentOf options) with
      | inr lines => inr (join [LF] lines ++ [LF])
      | inl error =>
          inl (stringifyError (lit "Failed to stringify JSONL: ") error)
      end
  end.

(** The effect that [stringifyStream] maps over each value. *)
Definition stringifyValue (value : Value)
    (options : option JsonLinesStringifyOptions) : ParseError + str :=
  match JSONstringify value (indentOf options) with
  | inr text => inr (plusText text ++ [LF])
  | inl error => inl (stringifyError (lit "Failed to stringify value: ") error)
  end.

(** [stringifyStream(values, options)] over the values of its input
    stream: the strings it emits, in order, and the error it fails with,
    if any; the first failure ends the stream. *)
Fixpoint stringifyStream (values : list Value)
    (options : option JsonLinesStringifyOptions)
  : list str * option ParseError :=
  match values with
  | [] => ([], None)
  | value :: rest =>
      match stringifyValue value options with
      | inl error => ([], Some error)
      | inr chunk =>
          let (chunks, failure) := stringifyStream rest options in
          (chunk :: chunks, failure)
      end
  end.

End Stringify.

End JsonLines.

(** The texts, each followed by a line feed. *)
Definition terminated (texts : list str) : str :=
  concat (map (fun t => t ++ [LF]) texts).

(** A text that is a line of JSON Lines as it is: no line feed, no
    carriage return, not blank. *)
Definition oneLine (t : str) : Prop :=
  ~ In LF t /\ ~ In CR t /\ nonBlank t = true.

(** A stand-in for [JSON.stringify] on values that are their own JSON
    text: it throws on the empty one. *)
Definition sampleStringify (value : str) (indent : Z) : unit + option str :=
  match value with
  | [] => inl tt
  | _ :: _ => inr (Some value)
  end.

(** ** Reading the output of [stripComments] against its input *)

(** [Subseq s t]: [s] is [t] with some of its characters deleted. *)
Inductive Subseq : str -> str -> Prop :=
  | subseq_nil : Subseq [] []
  | subseq_keep (c : char) (s t : str) : Subseq s t -> Subseq (c :: s) (c :: t)
  | subseq_drop (c : char) (s t : str) : Subseq s t -> Subseq s (c :: t).

(** [KeptFrom output input]: [output] is [input] with some of its
    characters other than line feeds deleted. *)
Inductive KeptFrom : str -> str -> Prop :=
  | kept_nil : KeptFrom [] []
  | kept_keep (c : char) (out inp : str) :
      KeptFrom out inp -> KeptFrom (c :: out) (c :: inp)
  | kept_drop (c : char) (out inp : str) :
      c <> LF -> KeptFrom out inp -> KeptFrom out (c :: inp).

(** A comment opener, slash-slash or slash-star, occurs in the text. *)
Fixpoint hasOpener (s : str) : bool :=
  match s with
  | [] => false
  | c :: rest =>
      (ceq c SLASH && (nextCharIs rest SLASH || nextCharIs rest STAR))
      || hasOpener rest
  end.

(** [StrippedOpen input output]: [input] ends inside a string literal or
    a block comment left open, and [output] is [input] without its
    comments: the open string literal is kept to the end, the open block
    comment is dropped to the end but for its line feeds. *)
Inductive StrippedOpen : str -> str -> Prop :=
  | open_string (body : str) :
      openBody body -> StrippedOpen (DQUOTE :: body) (DQUOTE :: body)
  | open_block (body : str) :
      noBlockEnd body ->
      StrippedOpen (SLASH :: STAR :: body) (lineFeedsOf body)
  | open_after_plain (c : char) (rest out : str) :
      c <> DQUOTE -> ~ opensComment (c :: rest) ->
      StrippedOpen rest out -> StrippedOpen (c :: rest) (c :: out)
  | open_after_string (body rest out : str) :
      stringBody body ->
      StrippedOpen rest out ->
      StrippedOpen (DQUOTE :: body ++ DQUOTE :: rest)
                   (DQUOTE :: body ++ DQUOTE :: out)
  | open_after_line (body rest out : str) :
      ~ In LF body ->
      StrippedOpen rest out ->
      StrippedOpen (SLASH :: SLASH :: body ++ LF :: rest) (LF :: out)
  | open_after_block (body rest out : str) :
      noBlockEnd body ->
      StrippedOpen rest out ->
      StrippedOpen (SLASH :: STAR :: body ++ STAR :: SLASH :: rest)
                   (lineFeedsOf body ++ out).

(** ** Tactics *)

(** Right-nested form of a concatenation. *)
Ltac app_norm := repeat (rewrite <- app_assoc || rewrite <- app_comm_cons).

(** Case analysis on the tests of the loop body. *)
Ltac scan_cases :=
  repeat match goal with
    | |- context [if ?b then _ else _] => destruct b eqn:?
    end;
  repeat match goal with
    | H : _ && _ = true |- _ => apply andb_true_iff in H; destruct H
    end.

(** * Properties *)

(** ** The primitives on small inputs *)

Example split_trailing_lf : split (lit "a" ++ [LF]) = [lit "a"; []].
Proof. reflexivity. Qed.

Example split_blank_lines :
  split (lit "a" ++ [LF; LF] ++ lit " b") = [lit "a"; []; lit " b"].
Proof. reflexivity. Qed.

Example lastIndexOf_two_lines :
  lastIndexOf (lit "a" ++ [LF] ++ lit "b" ++ [LF] ++ lit "c") = 3.
Proof. reflexivity. Qed.

Example lastIndexOf_absent : lastIndexOf (lit "abc") = -1.
Proof. reflexivity. Qed.

Example trim_both_ends :
  trim ([SPACE; 9%N] ++ lit "a b" ++ [CR; LF]) = lit "a b".
Proof. reflexivity. Qed.

Example slice_middle : slice (lit "abcdef") 1 (-2) = lit "bcd".
Proof. reflexivity. Qed.

(** ** Splitting at line feeds *)

Lemma ceq_true (c d : char) : ceq c d = true <-> c = d.
Proof. apply N.eqb_eq. Qed.

Lemma ceq_false (c d : char) : ceq c d = false <-> c <> d.
Proof. apply N.eqb_neq. Qed.

Lemma ceq_refl (c : char) : ceq c c = true.
Proof. apply N.eqb_refl. Qed.

Lemma len_nil : len [] = 0.
Proof. reflexivity. Qed.

Lemma len_cons (c : char) (s : str) : len (c :: s) = len s + 1.
Proof. unfold len. cbn [length]. lia. Qed.

Lemma len_app (s t : str) : len (s ++ t) = len s + len t.
Proof. unfold len. rewrite length_app. lia. Qed.

Lemma len_nonneg (s : str) : 0 <= len s.
Proof. unfold len. lia. Qed.

Lemma split_not_nil (s : str) : split s <> [].
Proof.
  destruct s as [|c rest]; cbn; [discriminate|].
  destruct (ceq c LF); [discriminate|].
  destruct (split rest); discriminate.
Qed.

Lemma split_cons_lf (s : str) : split (LF :: s) = [] :: split s.
Proof. reflexivity. Qed.

Lemma split_cons_other (c : char) (s : str) :
  c <> LF ->
  exists l ls, split s = l :: ls /\ split (c :: s) = (c :: l) :: ls.
Proof.
  intros Hc. cbn. apply ceq_false in Hc. rewrite Hc.
  destruct (split s) as [|l ls] eqn:E.
  - exfalso. exact (split_not_nil _ E).
  - exists l, ls. split; reflexivity.
Qed.

Lemma split_no_lf (s : str) : ~ In LF s -> split s = [s].
Proof.
  induction s as [|c rest IH]; intros Hn; [reflexivity|].
  assert (Hc : c <> LF) by (intros ->; apply Hn; left; reflexivity).
  destruct (split_cons_other c rest Hc) as (l & ls & E1 & E2).
  rewrite E2. rewrite IH in E1 by (intros H; apply Hn; right; exact H).
  injection E1 as <- <-. reflexivity.
Qed.

Lemma split_app_lf (x y : str) : split (x ++ LF :: y) = split x ++ split y.
Proof.
  induction x as [|c rest IH]; [reflexivity|].
  cbn [app]. destruct (N.eq_dec c LF) as [->|Hc].
  - rewrite !split_cons_lf, IH. reflexivity.
  - destruct (split_cons_other c (rest ++ LF :: y) Hc) as (l & ls & E1 & E2).
    destruct (split_cons_other c rest Hc) as (l' & ls' & E1' & E2').
    rewrite E2, E2'. rewrite IH, E1' in E1. cbn in E1.
    injection E1 as <- <-. reflexivity.
Qed.

Lemma split_pieces_no_lf (s l : str) : In l (split s) -> ~ In LF l.
Proof.
  revert l. induction s as [|c rest IH]; intros l Hl.
  - cbn in Hl. destruct Hl as [<-|[]]. intros [].
  - destruct (N.eq_dec c LF) as [->|Hc].
    + rewrite split_cons_lf in Hl. destruct Hl as [<-|Hl]; [intros []|].
      apply IH, Hl.
    + destruct (split_cons_other c rest Hc) as (l' & ls' & E1 & E2).
      rewrite E2 in Hl. destruct Hl as [<-|Hl].
      * intros [H|H]; [congruence|].
        apply (IH l'); [rewrite E1; left; reflexivity|exact H].
      * apply IH. rewrite E1. right. exact Hl.
Qed.

(** Every string either holds no line feed or splits at its last one. *)
Lemma last_lf_decomp (s : str) :
  ~ In LF s \/ exists pre post, s = pre ++ LF :: post /\ ~ In LF post.
Proof.
  induction s as [|c rest IH]; [left; intros []|].
  destruct IH as [Hn|(pre & post & -> & Hpost)].
  - destruct (N.eq_dec c LF) as [->|Hc].
    + right. exists [], rest. split; [reflexivity|exact Hn].
    + left. intros [H|H]; [congruence|exact (Hn H)].
  - right. exists (c :: pre), post. split; [reflexivity|exact Hpost].
Qed.

Lemma lastIndexOfFrom_none (s : str) (i : Z) :
  ~ In LF s -> lastIndexOfFrom s i = -1.
Proof.
  revert i. induction s as [|c rest IH]; intros i Hn; [reflexivity|].
  cbn. rewrite IH by (intros H; apply Hn; right; exact H). cbn.
  assert (Hc : c <> LF) by (intros ->; apply Hn; left; reflexivity).
  apply ceq_false in Hc. rewrite Hc. reflexivity.
Qed.

Lemma lastIndexOfFrom_last (pre post : str) (i : Z) :
  0 <= i -> ~ In LF post ->
  lastIndexOfFrom (pre ++ LF :: post) i = i + len pre.
Proof.
  revert i. induction pre as [|c rest IH]; intros i Hi Hn.
  - cbn [app lastIndexOfFrom]. rewrite lastIndexOfFrom_none by exact Hn.
    rewrite ceq_refl, len_nil. cbn. lia.
  - cbn [app lastIndexOfFrom]. rewrite IH by (lia || exact Hn).
    rewrite len_cons. pose proof (len_nonneg rest).
    destruct (Z.eqb_spec (i + 1 + len rest) (-1)); lia.
Qed.

Lemma lastIndexOf_none (s : str) : ~ In LF s -> lastIndexOf s = -1.
Proof. apply lastIndexOfFrom_none. Qed.

Lemma lastIndexOf_last (pre post : str) :
  ~ In LF post -> lastIndexOf (pre ++ LF :: post) = len pre.
Proof.
  intros Hn. unfold lastIndexOf. rewrite lastIndexOfFrom_last by (lia || exact Hn).
  lia.
Qed.

Lemma relIndex_inside (n i : Z) : 0 <= i <= n -> relIndex n i = i.
Proof.
  intros H. unfold relIndex. destruct (Z.ltb_spec i 0); lia.
Qed.

Lemma slice_prefix (pre post : str) :
  slice (pre ++ post) 0 (len pre) = pre.
Proof.
  unfold slice. pose proof (len_nonneg pre). pose proof (len_nonneg post).
  rewrite !relIndex_inside by (rewrite len_app; lia).
  cbn [Z.to_nat skipn]. rewrite Z.sub_0_r. unfold len. rewrite Nat2Z.id.
  rewrite firstn_app, Nat.sub_diag, firstn_all. cbn. apply app_nil_r.
Qed.

Lemma sliceFrom_suffix (pre post : str) :
  sliceFrom (pre ++ post) (len pre) = post.
Proof.
  unfold sliceFrom. pose proof (len_nonneg pre). pose proof (len_nonneg post).
  rewrite relIndex_inside by (rewrite len_app; lia).
  unfold len. rewrite Nat2Z.id.
  rewrite skipn_app, Nat.sub_diag, skipn_all. reflexivity.
Qed.

(** ** Lines and positions *)

Lemma span_app (ls1 ls2 : list str) : span (ls1 ++ ls2) = span ls1 + span ls2.
Proof. induction ls1 as [|l rest IH]; cbn [app span]; lia. Qed.

Lemma span_nonneg (ls : list str) : 0 <= span ls.
Proof.
  induction ls as [|l rest IH]; cbn [span]; [lia|].
  pose proof (len_nonneg l). lia.
Qed.

Lemma span_split (s : str) : span (split s) = len s + 1.
Proof.
  induction s as [|c rest IH]; [reflexivity|].
  rewrite len_cons. destruct (N.eq_dec c LF) as [->|Hc].
  - rewrite split_cons_lf. cbn [span]. rewrite len_nil. lia.
  - destruct (split_cons_other c rest Hc) as (l & ls & E1 & E2).
    rewrite E2. rewrite E1 in IH. cbn [span] in *. rewrite len_cons. lia.
Qed.

Lemma length_split (s : str) : length (split s) = S (countLF s).
Proof.
  unfold countLF. induction s as [|c rest IH]; [reflexivity|].
  destruct (N.eq_dec c LF) as [->|Hc].
  - rewrite split_cons_lf, count_occ_cons_eq by reflexivity.
    cbn [length]. rewrite IH. reflexivity.
  - destruct (split_cons_other c rest Hc) as (l & ls & E1 & E2).
    rewrite E2, count_occ_cons_neq by exact Hc. rewrite E1 in IH. exact IH.
Qed.

(** The lines of a concatenation: the last line of the first part runs
    on into the first line of the second. *)
Lemma split_app (a b : str) :
  split (a ++ b) =
    removelast (split a) ++ (last (split a) [] ++ hd [] (split b)) :: tl (split b).
Proof.
  induction a as [|c rest IH].
  - cbn. destruct (split b) as [|l ls] eqn:E; [|reflexivity].
    exfalso. exact (split_not_nil _ E).
  - cbn [app]. destruct (N.eq_dec c LF) as [->|Hc].
    + rewrite !split_cons_lf, IH.
      destruct (split rest) as [|l ls] eqn:E; [exfalso; exact (split_not_nil _ E)|].
      reflexivity.
    + destruct (split_cons_other c (rest ++ b) Hc) as (l & ls & E1 & E2).
      destruct (split_cons_other c rest Hc) as (l' & ls' & E1' & E2').
      rewrite E2, E2'. rewrite IH, E1' in E1.
      destruct ls' as [|l2 ls2].
      * cbn in E1 |- *. injection E1 as <- <-. reflexivity.
      * cbn [removelast last app] in E1 |- *. injection E1 as <- <-. reflexivity.
Qed.

Lemma split_removelast_last (s : str) :
  split s = removelast (split s) ++ [last (split s) []].
Proof. apply app_removelast_last, split_not_nil. Qed.

(** The position of an offset: the lines before it and the characters of
    its own line before it make up the offset. *)
Lemma span_before (a : str) :
  span (removelast (split a)) + len (last (split a) []) = len a.
Proof.
  pose proof (span_split a) as H.
  rewrite (split_removelast_last a), span_app in H. cbn [span] in H. lia.
Qed.

Lemma length_removelast_split (a : str) :
  length (removelast (split a)) = countLF a.
Proof.
  pose proof (length_split a) as H.
  rewrite (split_removelast_last a), length_app in H. cbn [length] in H. lia.
Qed.

Lemma repeat_space (k : Z) :
  0 <= k -> repeat [SPACE] k = Some (List.repeat SPACE (Z.to_nat k)).
Proof.
  intros Hk. unfold repeat. destruct (Z.ltb_spec k 0); [lia|]. f_equal.
  induction (Z.to_nat k) as [|n IH]; [reflexivity|].
  cbn [List.repeat concat app]. rewrite IH. reflexivity.
Qed.

(** The loops stop at the line where the position falls. *)
Lemma getLineColumnLoop_found (ls1 : list str) (l : str) (ls2 : list str)
    (i cp k : Z) :
  0 <= k <= len l ->
  getLineColumnLoop (cp + span ls1 + k) (ls1 ++ l :: ls2) i cp =
    {| line := i + Z.of_nat (length ls1) + 1; column := k + 1 |}.
Proof.
  intros Hk. revert i cp. induction ls1 as [|l1 rest IH]; intros i cp.
  - cbn [app getLineColumnLoop span length].
    destruct (Z.geb_spec (cp + len l) (cp + 0 + k)); [|lia].
    f_equal; lia.
  - cbn [app getLineColumnLoop span length].
    pose proof (span_nonneg rest). pose proof (len_nonneg l1).
    destruct (Z.geb_spec (cp + len l1) (cp + (len l1 + 1 + span rest) + k)); [lia|].
    replace (cp + (len l1 + 1 + span rest) + k)
      with ((cp + len l1 + 1) + span rest + k) by lia.
    rewrite IH. f_equal; lia.
Qed.

Lemma buildSnippetLoop_found (input : str) (ls1 : list str) (l : str)
    (ls2 : list str) (cp k : Z) :
  0 <= k <= len l ->
  buildSnippetLoop input (cp + span ls1 + k) (ls1 ++ l :: ls2) cp =
    Some (l ++ [LF] ++ List.repeat SPACE (Z.to_nat k) ++ [CARET]).
Proof.
  intros Hk. revert cp. induction ls1 as [|l1 rest IH]; intros cp.
  - cbn [app buildSnippetLoop span].
    destruct (Z.geb_spec (cp + len l) (cp + 0 + k)); [|lia].
    replace (cp + 0 + k - cp) with k by lia.
    rewrite repeat_space by lia. reflexivity.
  - cbn [app buildSnippetLoop span].
    pose proof (span_nonneg rest). pose proof (len_nonneg l1).
    destruct (Z.geb_spec (cp + len l1) (cp + (len l1 + 1 + span rest) + k)); [lia|].
    replace (cp + (len l1 + 1 + span rest) + k)
      with ((cp + len l1 + 1) + span rest + k) by lia.
    apply IH.
Qed.

(** Past the end of the lines the loops fall through. *)
Lemma getLineColumnLoop_beyond (position : Z) (ls : list str) (i cp : Z) :
  cp + span ls - 1 < position ->
  getLineColumnLoop position ls i cp = {| line := 1; column := 1 |}.
Proof.
  revert i cp. induction ls as [|l rest IH]; intros i cp H; [reflexivity|].
  cbn [getLineColumnLoop span] in *. pose proof (span_nonneg rest).
  destruct (Z.geb_spec (cp + len l) position); [lia|].
  apply IH. lia.
Qed.

Lemma buildSnippetLoop_beyond (input : str) (position : Z) (ls : list str)
    (cp : Z) :
  cp + span ls - 1 < position ->
  buildSnippetLoop input position ls cp = Some input.
Proof.
  revert cp. induction ls as [|l rest IH]; intros cp H; [reflexivity|].
  cbn [buildSnippetLoop span] in *. pose proof (span_nonneg rest).
  destruct (Z.geb_spec (cp + len l) position); [lia|].
  apply IH. lia.
Qed.

(** ** The comment scanner *)

Lemma countLF_cons (c : char) (s : str) :
  countLF (c :: s) = (if ceq c LF then S (countLF s) else countLF s).
Proof.
  unfold countLF, ceq. cbn [count_occ].
  destruct (N.eq_dec c LF) as [->|H]; [reflexivity|].
  apply N.eqb_neq in H. rewrite H. reflexivity.
Qed.

Lemma countLF_app (s t : str) : countLF (s ++ t) = (countLF s + countLF t)%nat.
Proof. apply count_occ_app. Qed.

Lemma nextCharIs_cons (c d : char) (s : str) : nextCharIs (c :: s) d = ceq c d.
Proof. reflexivity. Qed.

Lemma ceq_other (c d e : char) : ceq c d = true -> d <> e -> ceq c e = false.
Proof. intros H1 H2. apply ceq_true in H1. subst. apply ceq_false. exact H2. Qed.

(** Whatever the flags, the scan pushes as many line feeds as it reads. *)
Lemma scan_countLF_bounded (n : nat) :
  forall (s : str) (f : Flags),
    (length s <= n)%nat -> countLF (scan f s) = countLF s.
Proof.
  induction n as [|n IH]; intros s f Hn.
  - destruct s; [reflexivity|cbn in Hn; lia].
  - destruct s as [|c rest]; [reflexivity|].
    cbn [length] in Hn.
    assert (IH1 : forall f', countLF (scan f' rest) = countLF rest)
      by (intros; apply IH; lia).
    assert (IH2 : forall f' d rest', rest = d :: rest' ->
                    countLF (scan f' rest') = countLF rest')
      by (intros f' d rest' ->; apply IH; cbn [length] in Hn; lia).
    cbn [scan]. scan_cases; try discriminate;
    try (destruct rest as [|d rest']; [discriminate|];
         rewrite !countLF_cons, (IH2 _ d rest' eq_refl);
         rewrite nextCharIs_cons in *;
         repeat match goal with
           | H : ceq ?x ?y = true |- _ =>
               rewrite (ceq_other x y LF H) by discriminate; clear H
           end; reflexivity);
    rewrite ?countLF_cons, ?IH1;
    repeat match goal with
      | H : ceq ?x ?y = _ |- _ => rewrite H
      end; reflexivity.
Qed.

(** The loop body, flag by flag. *)

Lemma scan_normal_quote (rest : str) :
  scan normal (DQUOTE :: rest) = DQUOTE :: scan inStr rest.
Proof. reflexivity. Qed.

Lemma scan_normal_line (rest : str) :
  scan normal (SLASH :: SLASH :: rest) = scan inLine rest.
Proof. reflexivity. Qed.

Lemma scan_normal_block (rest : str) :
  scan normal (SLASH :: STAR :: rest) = scan inBlock rest.
Proof. reflexivity. Qed.

Lemma scan_normal_other (c : char) (rest : str) :
  c <> DQUOTE ->
  ceq c SLASH && (nextCharIs rest SLASH || nextCharIs rest STAR) = false ->
  scan normal (c :: rest) = c :: scan normal rest.
Proof.
  intros Hq Hs. apply ceq_false in Hq. cbn [scan normal escapeNext inString
    inComment inMultilineComment negb andb]. rewrite Hq.
  destruct (ceq c SLASH); cbn [andb] in *; [|reflexivity].
  apply orb_false_iff in Hs. destruct Hs as [-> ->]. reflexivity.
Qed.

Lemma scan_inStr_backslash (rest : str) :
  scan inStr (BACKSLASH :: rest) = BACKSLASH :: scan inStrEscaped rest.
Proof. reflexivity. Qed.

Lemma scan_inStr_quote (rest : str) :
  scan inStr (DQUOTE :: rest) = DQUOTE :: scan normal rest.
Proof. reflexivity. Qed.

Lemma scan_inStr_other (c : char) (rest : str) :
  c <> BACKSLASH -> c <> DQUOTE ->
  scan inStr (c :: rest) = c :: scan inStr rest.
Proof.
  intros Hb Hq. apply ceq_false in Hb, Hq. cbn [scan inStr escapeNext inString
    inComment inMultilineComment negb andb]. rewrite Hb, Hq. reflexivity.
Qed.

Lemma scan_inStrEscaped (c : char) (rest : str) :
  scan inStrEscaped (c :: rest) = c :: scan inStr rest.
Proof. reflexivity. Qed.

Lemma scan_inLine_lf (rest : str) :
  scan inLine (LF :: rest) = LF :: scan normal rest.
Proof. reflexivity. Qed.

Lemma scan_inLine_other (c : char) (rest : str) :
  c <> LF -> scan inLine (c :: rest) = scan inLine rest.
Proof.
  intros Hc. apply ceq_false in Hc. cbn [scan inLine escapeNext inString
    inComment inMultilineComment negb andb]. rewrite Hc. reflexivity.
Qed.

Lemma scan_inBlock_close (rest : str) :
  scan inBlock (STAR :: SLASH :: rest) = scan normal rest.
Proof. reflexivity. Qed.

Lemma scan_inBlock_lf (rest : str) :
  scan inBlock (LF :: rest) = LF :: scan inBlock rest.
Proof. reflexivity. Qed.

Lemma scan_inBlock_other (c : char) (rest : str) :
  c <> LF -> ceq c STAR && nextCharIs rest SLASH = false ->
  scan inBlock (c :: rest) = scan inBlock rest.
Proof.
  intros Hc Hs. apply ceq_false in Hc. cbn [scan inBlock escapeNext inString
    inComment inMultilineComment negb andb]. rewrite Hs, Hc. reflexivity.
Qed.

(** Outside strings and comments, a character that opens no comment is
    the next character of the output. *)
Lemma nextCharIs_scan_normal (rest : str) (d : char) :
  nextCharIs rest SLASH = false ->
  nextCharIs (scan normal rest) d = nextCharIs rest d.
Proof.
  intros Hs. destruct rest as [|c rest]; [reflexivity|].
  rewrite nextCharIs_cons in Hs.
  destruct (N.eq_dec c DQUOTE) as [->|Hq]; [reflexivity|].
  rewrite scan_normal_other by (exact Hq || (rewrite Hs; reflexivity)).
  reflexivity.
Qed.

(** Scanning the output again, from the flags at which the output
    resumes, changes nothing. *)
Lemma scan_scan_bounded (n : nat) :
  forall (s : str) (f : Flags),
    (length s <= n)%nat -> reachable f ->
    scan (resume f) (scan f s) = scan f s.
Proof.
  induction n as [|n IH]; intros s f Hn Hf.
  - destruct s; [reflexivity|cbn in Hn; lia].
  - destruct s as [|c rest]; [reflexivity|].
    cbn [length] in Hn.
    assert (IH1 : forall f', reachable f' ->
                    scan (resume f') (scan f' rest) = scan f' rest)
      by (intros; apply IH; [lia|assumption]).
    destruct Hf; unfold resume; cbn [inString escapeNext];
      fold normal; fold inStr; fold inStrEscaped.
    + (* normal *)
      destruct (N.eq_dec c DQUOTE) as [->|Hq].
      { rewrite !scan_normal_quote. f_equal. exact (IH1 _ reach_inStr). }
      destruct (ceq c SLASH && (nextCharIs rest SLASH || nextCharIs rest STAR))
        eqn:Hs.
      * apply andb_true_iff in Hs. destruct Hs as [Hc Hs].
        apply ceq_true in Hc. subst c.
        destruct rest as [|d rest']; [discriminate|].
        rewrite !nextCharIs_cons in Hs. cbn [length] in Hn.
        apply orb_true_iff in Hs. destruct Hs as [Hd|Hd];
          apply ceq_true in Hd; subst d.
        -- rewrite scan_normal_line.
           apply (IH rest' inLine); [lia|constructor].
        -- rewrite scan_normal_block.
           apply (IH rest' inBlock); [lia|constructor].
      * rewrite scan_normal_other by assumption.
        rewrite scan_normal_other.
        -- f_equal. exact (IH1 _ reach_normal).
        -- exact Hq.
        -- destruct (ceq c SLASH); [|reflexivity]. cbn [andb] in *.
           apply orb_false_iff in Hs. destruct Hs as [Hs1 Hs2].
           rewrite !nextCharIs_scan_normal by exact Hs1.
           rewrite Hs1, Hs2. reflexivity.
    + (* inside a string *)
      destruct (N.eq_dec c BACKSLASH) as [->|Hb].
      { rewrite !scan_inStr_backslash. f_equal. exact (IH1 _ reach_inStrEscaped). }
      destruct (N.eq_dec c DQUOTE) as [->|Hq].
      { rewrite !scan_inStr_quote. f_equal. exact (IH1 _ reach_normal). }
      rewrite !scan_inStr_other by assumption. f_equal.
      exact (IH1 _ reach_inStr).
    + (* after a backslash *)
      rewrite !scan_inStrEscaped. f_equal. exact (IH1 _ reach_inStr).
    + (* line comment *)
      destruct (N.eq_dec c LF) as [->|Hc].
      * rewrite scan_inLine_lf.
        rewrite scan_normal_other by (discriminate || reflexivity).
        f_equal. exact (IH1 _ reach_normal).
      * rewrite scan_inLine_other by exact Hc. exact (IH1 _ reach_inLine).
    + (* block comment *)
      destruct (N.eq_dec c LF) as [->|Hc].
      { rewrite scan_inBlock_lf.
        rewrite scan_normal_other by (discriminate || reflexivity).
        f_equal. exact (IH1 _ reach_inBlock). }
      destruct (ceq c STAR && nextCharIs rest SLASH) eqn:Hs.
      * apply andb_true_iff in Hs. destruct Hs as [Hc' Hs].
        apply ceq_true in Hc'. subst c.
        destruct rest as [|d rest']; [discriminate|].
        rewrite nextCharIs_cons in Hs. apply ceq_true in Hs. subst d.
        rewrite scan_inBlock_close. cbn [length] in Hn.
        apply (IH rest' normal); [lia|constructor].
      * rewrite scan_inBlock_other by assumption. exact (IH1 _ reach_inBlock).
Qed.

(** A string literal is copied up to and with its closing quote. *)
Lemma scan_string_literal (body rest : str) :
  stringBody body ->
  scan inStr (body ++ DQUOTE :: rest) = body ++ DQUOTE :: scan normal rest.
Proof.
  induction 1 as [|c body Hq Hb _ IH|c body _ IH]; cbn [app].
  - apply scan_inStr_quote.
  - rewrite scan_inStr_other by assumption. f_equal. exact IH.
  - rewrite scan_inStr_backslash, scan_inStrEscaped. do 2 f_equal. exact IH.
Qed.

(** A line comment is dropped up to its line feed, or to the end. *)
Lemma scan_line_comment (body rest : str) :
  ~ In LF body ->
  scan inLine (body ++ LF :: rest) = LF :: scan normal rest.
Proof.
  induction body as [|c body IH]; intros Hn; cbn [app].
  - apply scan_inLine_lf.
  - rewrite scan_inLine_other by (intros ->; apply Hn; left; reflexivity).
    apply IH. intros H. apply Hn. right. exact H.
Qed.

Lemma scan_line_comment_at_end (body : str) :
  ~ In LF body -> scan inLine body = [].
Proof.
  induction body as [|c body IH]; intros Hn; [reflexivity|].
  rewrite scan_inLine_other by (intros ->; apply Hn; left; reflexivity).
  apply IH. intros H. apply Hn. right. exact H.
Qed.

Lemma noBlockEnd_tail (c : char) (body : str) :
  noBlockEnd (c :: body) -> noBlockEnd body.
Proof. intros H a b ->. exact (H (c :: a) b eq_refl). Qed.

(** A block comment is dropped up to and with its closing star-slash,
    but for its line feeds. *)
Lemma scan_block_comment (body rest : str) :
  noBlockEnd body ->
  scan inBlock (body ++ STAR :: SLASH :: rest) =
    lineFeedsOf body ++ scan normal rest.
Proof.
  induction body as [|c body IH]; intros Hn; cbn [app].
  - apply scan_inBlock_close.
  - specialize (IH (noBlockEnd_tail _ _ Hn)).
    unfold lineFeedsOf in *. cbn [filter].
    destruct (N.eq_dec c LF) as [->|Hc].
    + rewrite ceq_refl, scan_inBlock_lf. cbn [app]. f_equal. exact IH.
    + rewrite (proj2 (ceq_false c LF) Hc). rewrite scan_inBlock_other.
      * exact IH.
      * exact Hc.
      * destruct (ceq c STAR) eqn:Hs; [|reflexivity]. cbn [andb].
        apply ceq_true in Hs. subst c.
        destruct body as [|d body]; [reflexivity|].
        cbn [app]. rewrite nextCharIs_cons. apply ceq_false. intros ->.
        exact (Hn [] body eq_refl).
Qed.

Lemma hasBlockEnd_false (s : str) : hasBlockEnd s = false -> noBlockEnd s.
Proof.
  intros H a. revert s H. induction a as [|c a IH]; intros s H b ->.
  - cbn in H. discriminate.
  - cbn [app hasBlockEnd] in H. apply orb_false_iff in H.
    exact (IH _ (proj2 H) b eq_refl).
Qed.

(** The scan computes what the specification describes. *)
Lemma Stripped_scan (input output : str) :
  Stripped input output -> scan normal input = output.
Proof.
  induction 1 as [|c rest out Hq Ho _ IH|body rest out Hb _ IH
                  |body rest out Hn _ IH|body Hn|body rest out Hn _ IH].
  - reflexivity.
  - rewrite scan_normal_other; [f_equal; exact IH|exact Hq|].
    destruct (ceq c SLASH) eqn:Hs; [|reflexivity]. cbn [andb].
    apply ceq_true in Hs. subst c.
    destruct rest as [|d rest]; [reflexivity|].
    rewrite !nextCharIs_cons. apply orb_false_iff. split; apply ceq_false;
      intros ->; apply Ho; exists rest; [left|right]; reflexivity.
  - rewrite scan_normal_quote, scan_string_literal by exact Hb.
    rewrite IH. reflexivity.
  - rewrite scan_normal_line, scan_line_comment by exact Hn.
    rewrite IH. reflexivity.
  - rewrite scan_normal_line. apply scan_line_comment_at_end, Hn.
  - rewrite scan_normal_block, scan_block_comment by exact Hn.
    rewrite IH. reflexivity.
Qed.

(** *** Every text is read one way or the other *)

(** A string either closes or runs to the end of the text. *)
Lemma string_closes_or_not_bounded (n : nat) :
  forall s : str, (length s <= n)%nat ->
    (exists body rest, s = body ++ DQUOTE :: rest /\ stringBody body
                       /\ (length rest < length s)%nat)
    \/ openBody s.
Proof.
  induction n as [|n IH]; intros s Hn.
  - destruct s; [right; constructor|cbn in Hn; lia].
  - destruct s as [|c s]; [right; constructor|]. cbn [length] in Hn.
    destruct (N.eq_dec c DQUOTE) as [->|Hq].
    { left. exists [], s. repeat split; [constructor|cbn; lia]. }
    destruct (N.eq_dec c BACKSLASH) as [->|Hb].
    + destruct s as [|d s]; [right; constructor|]. cbn [length] in Hn.
      destruct (IH s ltac:(lia)) as [(body & rest & -> & Hbody & Hlen)|Ho].
      * left. exists (BACKSLASH :: d :: body), rest.
        repeat split; [apply body_escape; exact Hbody|cbn [length] in *; lia].
      * right. apply open_escape. exact Ho.
    + destruct (IH s ltac:(lia)) as [(body & rest & -> & Hbody & Hlen)|Ho].
      * left. exists (c :: body), rest.
        repeat split; [apply body_char; assumption|cbn [length] in *; lia].
      * right. apply open_char; assumption.
Qed.

(** A line either ends at a line feed or runs to the end of the text. *)
Lemma first_lf_decomp (s : str) :
  ~ In LF s \/ exists body rest, s = body ++ LF :: rest /\ ~ In LF body.
Proof.
  induction s as [|c s IH]; [left; intros []|].
  destruct (N.eq_dec c LF) as [->|Hc].
  { right. exists [], s. split; [reflexivity|intros []]. }
  destruct IH as [Hn|(body & rest & -> & Hn)].
  - left. intros [H|H]; [congruence|exact (Hn H)].
  - right. exists (c :: body), rest. split; [reflexivity|].
    intros [H|H]; [congruence|exact (Hn H)].
Qed.

Lemma noBlockEnd_cons (c : char) (body : str) :
  ceq c STAR && nextCharIs body SLASH = false ->
  noBlockEnd body -> noBlockEnd (c :: body).
Proof.
  intros Hc Hn a b E. destruct a as [|d a].
  - cbn [app] in E. injection E as -> ->. cbn in Hc. discriminate.
  - cbn [app] in E. injection E as -> ->. exact (Hn a b eq_refl).
Qed.

(** A block comment either closes or runs to the end of the text. *)
Lemma first_block_end_decomp (s : str) :
  noBlockEnd s
  \/ exists body rest, s = body ++ STAR :: SLASH :: rest /\ noBlockEnd body.
Proof.
  induction s as [|c s IH]; [left; intros [|? ?] ?; discriminate|].
  destruct (ceq c STAR && nextCharIs s SLASH) eqn:Hc.
  - right. apply andb_true_iff in Hc. destruct Hc as [Hc Hs].
    apply ceq_true in Hc. subst c. destruct s as [|d s]; [discriminate|].
    rewrite nextCharIs_cons in Hs. apply ceq_true in Hs. subst d.
    exists [], s. split; [reflexivity|intros [|? ?] ?; discriminate].
  - destruct IH as [Hn|(body & rest & -> & Hn)].
    + left. apply noBlockEnd_cons; assumption.
    + right. exists (c :: body), rest. split; [reflexivity|].
      apply noBlockEnd_cons; [|exact Hn].
      destruct (ceq c STAR); [|reflexivity]. cbn [andb] in *.
      destruct body as [|d body]; [reflexivity|exact Hc].
Qed.

Lemma not_opensComment (c : char) (rest : str) :
  ceq c SLASH && (nextCharIs rest SLASH || nextCharIs rest STAR) = false ->
  ~ opensComment (c :: rest).
Proof.
  intros H [r [E|E]]; injection E as -> ->; cbn in H; discriminate.
Qed.

(** Every text is read as plain characters, string literals and comments,
    up to its end or up to a string literal or a block comment that it
    leaves open. *)
Lemma Stripped_or_Unclosed_bounded (n : nat) :
  forall s : str, (length s <= n)%nat ->
    (exists out, Stripped s out) \/ Unclosed s.
Proof.
  induction n as [|n IH]; intros s Hn.
  - destruct s; [left; exists []; constructor|cbn in Hn; lia].
  - destruct s as [|c s]; [left; exists []; constructor|]. cbn [length] in Hn.
    destruct (N.eq_dec c DQUOTE) as [->|Hq].
    { destruct (string_closes_or_not_bounded (length s) s (le_n _))
        as [(body & rest & -> & Hbody & Hlen)|Ho].
      - destruct (IH rest ltac:(lia)) as [[out Hout]|Hu].
        + left. exists (DQUOTE :: body ++ DQUOTE :: out).
          constructor; assumption.
        + right. apply unclosed_after_string; assumption.
      - right. constructor. exact Ho. }
    destruct (ceq c SLASH && (nextCharIs s SLASH || nextCharIs s STAR)) eqn:Hc.
    + apply andb_true_iff in Hc. destruct Hc as [Hc Hs].
      apply ceq_true in Hc. subst c. destruct s as [|d s]; [discriminate|].
      rewrite !nextCharIs_cons in Hs. cbn [length] in Hn.
      apply orb_true_iff in Hs. destruct Hs as [Hd|Hd];
        apply ceq_true in Hd; subst d.
      * destruct (first_lf_decomp s) as [Hnl|(body & rest & -> & Hnl)].
        -- left. exists []. constructor. exact Hnl.
        -- rewrite length_app in Hn. cbn [length] in Hn.
           destruct (IH rest ltac:(lia)) as [[out Hout]|Hu].
           ++ left. exists (LF :: out). constructor; assumption.
           ++ right. apply unclosed_after_line; assumption.
      * destruct (first_block_end_decomp s) as [Hnb|(body & rest & -> & Hnb)].
        -- right. constructor. exact Hnb.
        -- rewrite length_app in Hn. cbn [length] in Hn.
           destruct (IH rest ltac:(lia)) as [[out Hout]|Hu].
           ++ left. exists (lineFeedsOf body ++ out). constructor; assumption.
           ++ right. apply unclosed_after_block; assumption.
    + pose proof (not_opensComment c s Hc) as Ho.
      destruct (IH s ltac:(lia)) as [[out Hout]|Hu].
      * left. exists (c :: out). constructor; assumption.
      * right. apply unclosed_plain; assumption.
Qed.

(** *** The two readings exclude each other *)

Lemma string_literal_unique (b1 : str) :
  stringBody b1 ->
  forall b2 r1 r2 : str,
    stringBody b2 -> b1 ++ DQUOTE :: r1 = b2 ++ DQUOTE :: r2 ->
    b1 = b2 /\ r1 = r2.
Proof.
  induction 1 as [|c b1 Hq Hb _ IH|c b1 _ IH]; intros b2 r1 r2 H2 E.
  - destruct H2 as [|c' b2 Hq' _ _|c' b2 _]; cbn [app] in E.
    + injection E as ->. split; reflexivity.
    + injection E as E _. congruence.
    + discriminate.
  - destruct H2 as [|c' b2 Hq' Hb' H2|c' b2 H2]; cbn [app] in E.
    + injection E as E _. congruence.
    + injection E as -> E. destruct (IH _ _ _ H2 E) as [-> ->].
      split; reflexivity.
    + injection E as E _. congruence.
  - destruct H2 as [|c' b2 Hq' Hb' H2|c' b2 H2]; cbn [app] in E.
    + discriminate.
    + injection E as E _. congruence.
    + injection E as -> E. destruct (IH _ _ _ H2 E) as [-> ->].
      split; reflexivity.
Qed.

Lemma string_literal_not_open (b1 : str) :
  stringBody b1 ->
  forall r1 : str, ~ openBody (b1 ++ DQUOTE :: r1).
Proof.
  induction 1 as [|c b1 Hq Hb _ IH|c b1 _ IH]; intros r1 Ho; cbn [app] in Ho.
  - inversion Ho; congruence.
  - inversion Ho; subst; try congruence. eapply IH; eassumption.
  - inversion Ho; subst; try congruence. eapply IH; eassumption.
Qed.

Lemma line_comment_unique (b1 : str) :
  forall b2 r1 r2 : str,
    ~ In LF b1 -> ~ In LF b2 -> b1 ++ LF :: r1 = b2 ++ LF :: r2 ->
    b1 = b2 /\ r1 = r2.
Proof.
  induction b1 as [|c b1 IH]; intros [|c' b2] r1 r2 H1 H2 E; cbn [app] in E.
  - injection E as ->. split; reflexivity.
  - injection E as <- _. exfalso. apply H2. left. reflexivity.
  - injection E as -> _. exfalso. apply H1. left. reflexivity.
  - injection E as -> E.
    destruct (IH b2 r1 r2) as [-> ->];
      [intros H; apply H1; right; exact H
      |intros H; apply H2; right; exact H|exact E|].
    split; reflexivity.
Qed.

Lemma block_comment_unique (b1 : str) :
  forall b2 r1 r2 : str,
    noBlockEnd b1 -> noBlockEnd b2 ->
    b1 ++ STAR :: SLASH :: r1 = b2 ++ STAR :: SLASH :: r2 ->
    b1 = b2 /\ r1 = r2.
Proof.
  induction b1 as [|c b1 IH]; intros [|c' b2] r1 r2 H1 H2 E; cbn [app] in E.
  - injection E as ->. split; reflexivity.
  - injection E as <- E. destruct b2 as [|d b2]; cbn [app] in E.
    + discriminate.
    + injection E as <- _. exfalso. exact (H2 [] b2 eq_refl).
  - injection E as -> E. destruct b1 as [|d b1]; cbn [app] in E.
    + discriminate.
    + injection E as -> _. exfalso. exact (H1 [] b1 eq_refl).
  - injection E as -> E.
    destruct (IH b2 r1 r2 (noBlockEnd_tail _ _ H1) (noBlockEnd_tail _ _ H2) E)
      as [-> ->].
    split; reflexivity.
Qed.

Lemma opensComment_line (rest : str) : opensComment (SLASH :: SLASH :: rest).
Proof. exists rest. left. reflexivity. Qed.

Lemma opensComment_block (rest : str) : opensComment (SLASH :: STAR :: rest).
Proof. exists rest. right. reflexivity. Qed.

(** A text that is read to its end is not left open. *)
Lemma Stripped_not_Unclosed (input output : str) :
  Stripped input output -> ~ Unclosed input.
Proof.
  induction 1 as [|c rest out Hq Ho _ IH|body rest out Hb _ IH
                  |body rest out Hn _ IH|body Hn|body rest out Hn _ IH];
    intros Hu; inversion Hu; subst;
    try discriminate; try contradiction; try congruence;
    try match goal with
      | Hno : ~ opensComment _ |- _ =>
          apply Hno; (apply opensComment_line || apply opensComment_block)
      | Hno : noBlockEnd (?b ++ STAR :: SLASH :: ?r) |- _ =>
          exact (Hno b r eq_refl)
      end.
  - (* a string literal, read as left open *)
    eapply string_literal_not_open; eassumption.
  - (* a string literal, then a text left open *)
    match goal with
    | E : _ ++ DQUOTE :: _ = body ++ DQUOTE :: rest, Hb' : stringBody _ |- _ =>
        destruct (string_literal_unique _ Hb' _ _ _ Hb E) as [-> ->]
    end.
    contradiction.
  - (* a line comment, then a text left open *)
    match goal with
    | E : _ ++ LF :: _ = body ++ LF :: rest, Hn' : ~ In LF _ |- _ =>
        destruct (line_comment_unique _ _ _ _ Hn' Hn E) as [-> ->]
    end.
    contradiction.
  - (* a line comment up to the end, read as one that ends *)
    apply Hn. rewrite in_app_iff. right. left. reflexivity.
  - (* a block comment, then a text left open *)
    match goal with
    | E : _ ++ STAR :: SLASH :: _ = body ++ STAR :: SLASH :: rest,
      Hn' : noBlockEnd _ |- _ =>
        destruct (block_comment_unique _ _ _ _ Hn' Hn E) as [-> ->]
    end.
    contradiction.
Qed.

(** ** The line buffer *)

Module LineBufferFacts.
Import LineBuffer.

(** No line feed in buffer and chunk: everything stays buffered. *)
Lemma processChunk_no_lf (b : t) (chunk : str) :
  ~ In LF (buffer b ++ chunk) ->
  processChunk b chunk =
    ({| buffer := buffer b ++ chunk; lineNumber := lineNumber b |}, []).
Proof.
  intros Hn. unfold processChunk. rewrite lastIndexOf_none by exact Hn.
  reflexivity.
Qed.

(** Otherwise the text before the last line feed is split and pushed,
    and the text after it is the new buffer. *)
Lemma processChunk_lf (b : t) (chunk pre post : str) :
  buffer b ++ chunk = pre ++ LF :: post -> ~ In LF post ->
  processChunk b chunk =
    ({| buffer := post; lineNumber := snd (pushLines (split pre) (lineNumber b)) |},
     fst (pushLines (split pre) (lineNumber b))).
Proof.
  intros E Hn. unfold processChunk. rewrite E.
  rewrite lastIndexOf_last by exact Hn.
  pose proof (len_nonneg pre).
  destruct (Z.eqb_spec (len pre) (-1)); [lia|].
  rewrite slice_prefix.
  replace (pre ++ LF :: post) with ((pre ++ [LF]) ++ post)
    by (rewrite <- app_assoc; reflexivity).
  replace (len pre + 1) with (len (pre ++ [LF]))
    by (rewrite len_app; reflexivity).
  rewrite sliceFrom_suffix.
  destruct (pushLines (split pre) (lineNumber b)); reflexivity.
Qed.

Lemma pushLines_app (ls1 ls2 : list str) (n : Z) :
  pushLines (ls1 ++ ls2) n =
    (fst (pushLines ls1 n) ++ fst (pushLines ls2 (snd (pushLines ls1 n))),
     snd (pushLines ls2 (snd (pushLines ls1 n)))).
Proof.
  revert n. induction ls1 as [|l rest IH]; intros n.
  - cbn. destruct (pushLines ls2 n); reflexivity.
  - cbn [app pushLines]. destruct (0 <? len (trim l)).
    + rewrite IH. destruct (pushLines rest (n + 1)) as [r1 n1]. reflexivity.
    + apply IH.
Qed.

(** The lines pushed are lines of the input with a non-empty trim. *)
Lemma pushLines_In (ls : list str) (n : Z) (r : Line.t) :
  In r (fst (pushLines ls n)) ->
  In (Line.line r) ls /\ 0 < len (trim (Line.line r)).
Proof.
  revert n. induction ls as [|l rest IH]; intros n H; [destruct H|].
  cbn [pushLines] in H. destruct (Z.ltb_spec 0 (len (trim l))) as [Hl|Hl].
  - destruct (pushLines rest (n + 1)) as [r1 n1] eqn:E. cbn in H.
    destruct H as [<-|H].
    + split; [left; reflexivity|exact Hl].
    + destruct (IH (n + 1) ltac:(rewrite E; exact H)) as [H1 H2].
      split; [right; exact H1|exact H2].
  - destruct (IH n H) as [H1 H2]. split; [right; exact H1|exact H2].
Qed.

(** After [processChunk] the buffer holds no line feed. *)
Lemma processChunk_buffer (b : t) (chunk : str) :
  ~ In LF (buffer (fst (processChunk b chunk))).
Proof.
  destruct (last_lf_decomp (buffer b ++ chunk)) as [Hn|(pre & post & E & Hn)].
  - rewrite processChunk_no_lf by exact Hn. exact Hn.
  - rewrite (processChunk_lf _ _ _ _ E Hn). exact Hn.
Qed.

Lemma processChunk_nil (b : t) :
  ~ In LF (buffer b) -> processChunk b [] = (b, []).
Proof.
  intros Hn. rewrite processChunk_no_lf by (rewrite app_nil_r; exact Hn).
  rewrite app_nil_r. destruct b; reflexivity.
Qed.

(** Two chunks in a row are one call on their concatenation. *)
Lemma processChunk_app (b : t) (c1 c2 : str) :
  processChunk b (c1 ++ c2) =
    (fst (processChunk (fst (processChunk b c1)) c2),
     snd (processChunk b c1) ++ snd (processChunk (fst (processChunk b c1)) c2)).
Proof.
  destruct (last_lf_decomp (buffer b ++ c1)) as [H1|(pre & post & E1 & H1)].
  - rewrite (processChunk_no_lf b c1) by exact H1. cbn [fst snd app].
    unfold processChunk at 2 3. cbn [buffer lineNumber].
    unfold processChunk at 1. rewrite app_assoc.
    destruct (lastIndexOf ((buffer b ++ c1) ++ c2) =? -1); [reflexivity|].
    destruct (pushLines _ _); reflexivity.
  - rewrite (processChunk_lf b c1 pre post E1 H1). cbn [fst snd].
    set (b1 := {| buffer := post; lineNumber := _ |}).
    destruct (last_lf_decomp c2) as [H2|(pre2 & post2 & E2 & H2)].
    + assert (Hn : ~ In LF (post ++ c2))
        by (rewrite in_app_iff; intros [H|H]; [exact (H1 H)|exact (H2 H)]).
      rewrite (processChunk_no_lf b1 c2) by exact Hn. cbn [fst snd].
      rewrite app_nil_r.
      rewrite (processChunk_lf b (c1 ++ c2) pre (post ++ c2)).
      * reflexivity.
      * rewrite app_assoc, E1. app_norm. reflexivity.
      * exact Hn.
    + subst c2.
      rewrite (processChunk_lf b1 (pre2 ++ LF :: post2) (post ++ pre2) post2)
        by (cbn [buffer b1]; app_norm; (reflexivity || exact H2)).
      rewrite (processChunk_lf b (c1 ++ pre2 ++ LF :: post2)
                 (pre ++ LF :: post ++ pre2) post2).
      * rewrite split_app_lf, pushLines_app. reflexivity.
      * transitivity ((buffer b ++ c1) ++ pre2 ++ LF :: post2);
          [app_norm; reflexivity|rewrite E1; app_norm; reflexivity].
      * exact H2.
Qed.

(** Feeding chunks one by one is feeding their concatenation at once. *)
Lemma feed_concat (chunks : list str) (b : t) :
  ~ In LF (buffer b) -> feed b chunks = processChunk b (concat chunks).
Proof.
  revert b. induction chunks as [|c rest IH]; intros b Hn.
  - cbn. symmetry. apply processChunk_nil, Hn.
  - cbn [feed concat]. rewrite processChunk_app.
    pose proof (processChunk_buffer b c) as Hb.
    destruct (processChunk b c) as [b1 r1]. cbn [fst snd] in *.
    rewrite (IH b1 Hb). destruct (processChunk b1 (concat rest)); reflexivity.
Qed.

Lemma countFrom_succ (n : Z) (k : nat) :
  countFrom n (S k) = (n + 1) :: countFrom (n + 1) k.
Proof.
  unfold countFrom. cbn [seq map]. f_equal.
  rewrite <- seq_shift, map_map. apply map_ext. intros i. lia.
Qed.

Lemma countFrom_app (n : Z) (j k : nat) :
  countFrom n (j + k) = countFrom n j ++ countFrom (n + Z.of_nat j) k.
Proof.
  revert n. induction j as [|j IH]; intros n.
  - cbn [Nat.add]. replace (n + Z.of_nat 0) with n by lia. reflexivity.
  - cbn [Nat.add]. rewrite !countFrom_succ, IH. cbn [app]. do 3 f_equal. lia.
Qed.

(** The lines pushed are numbered from the counter on, without a gap. *)
Lemma pushLines_numbers (ls : list str) (n : Z) :
  map Line.lineNumber (fst (pushLines ls n)) =
    countFrom n (length (fst (pushLines ls n)))
  /\ snd (pushLines ls n) = n + Z.of_nat (length (fst (pushLines ls n))).
Proof.
  revert n. induction ls as [|l rest IH]; intros n.
  - cbn. split; [reflexivity|lia].
  - cbn [pushLines]. destruct (0 <? len (trim l)); [|apply IH].
    destruct (IH (n + 1)) as [H1 H2].
    destruct (pushLines rest (n + 1)) as [r1 n1]. cbn [fst snd] in *.
    cbn [map length Line.lineNumber]. rewrite countFrom_succ, H1.
    split; [reflexivity|lia].
Qed.

Lemma processChunk_numbers (b : t) (chunk : str) :
  map Line.lineNumber (snd (processChunk b chunk)) =
    countFrom (lineNumber b) (length (snd (processChunk b chunk)))
  /\ lineNumber (fst (processChunk b chunk)) =
       lineNumber b + Z.of_nat (length (snd (processChunk b chunk))).
Proof.
  destruct (last_lf_decomp (buffer b ++ chunk)) as [Hn|(pre & post & E & Hn)].
  - rewrite processChunk_no_lf by exact Hn. cbn. split; [reflexivity|lia].
  - rewrite (processChunk_lf _ _ _ _ E Hn). cbn [fst snd lineNumber].
    apply pushLines_numbers.
Qed.

Lemma flush_numbers (b : t) :
  map Line.lineNumber (snd (flush b)) =
    countFrom (lineNumber b) (length (snd (flush b))).
Proof.
  unfold flush. destruct (0 <? len (trim (buffer b))); reflexivity.
Qed.

Lemma flush_nonblank (b : t) :
  trim (buffer b) <> [] ->
  flush b =
    ({| buffer := buffer b; lineNumber := lineNumber b + 1 |},
     [Line.mk (trim (buffer b)) (lineNumber b + 1)]).
Proof.
  intros Hne. unfold flush.
  destruct (Z.ltb_spec 0 (len (trim (buffer b)))) as [_|Hle]; [reflexivity|].
  destruct (trim (buffer b)) as [|c rest]; [congruence|].
  rewrite len_cons in Hle. pose proof (len_nonneg rest). lia.
Qed.

End LineBufferFacts.

(** ** The scenarios of the specification *)

(** Scenario A: the line comment goes, its line feed stays. *)
Example scenarioA_stripComments : stripComments scenarioA = scenarioA_stripped.
Proof. vm_compute. reflexivity. Qed.

(** Scenario D: a line split between two chunks. *)
Example scenarioD_run :
  LineBuffer.run
    [lit "{" ++ [DQUOTE] ++ lit "id" ++ [DQUOTE] ++ lit ":";
     lit "1}" ++ [LF] ++ id2 ++ [LF]]
  = [Line.mk id1 1; Line.mk id2 2].
Proof. vm_compute. reflexivity. Qed.

(** ** The claims *)

(** C1. Rechunking invariance: whatever the partition of a text into
    chunks, [processChunk] on the chunks in order and then [flush] returns
    the same lines, with the same numbers and in the same order, as
    [processChunk] on the whole text and then [flush]. *)
Theorem rechunking_invariance (chunks : list str) :
  LineBuffer.run chunks = LineBuffer.run [concat chunks].
Proof.
  unfold LineBuffer.run.
  rewrite !LineBufferFacts.feed_concat by (intros []).
  cbn [concat]. rewrite app_nil_r. reflexivity.
Qed.

(** C2. The code does not do what the claim says.  On the chunk
    [" a\r\n"], [processChunk] returns the line as it stands between the
    line feeds, [" a\r"]: not trimmed, and with the carriage return, so
    that the claim fails there.  The sibling paths do better on the same
    record: [splitLines] normalises the line ending and returns [" a"],
    and [flush], given the same text as its pending buffer, trims it to
    ["a"]. *)
Theorem processChunk_keeps_carriage_return :
  let chunk := lit " a" ++ [CR; LF] in
  snd (LineBuffer.processChunk LineBuffer.new chunk)
    = [Line.mk (lit " a" ++ [CR]) 1]
  /\ In CR (lit " a" ++ [CR])
  /\ trim (lit " a" ++ [CR]) = lit "a"
  /\ ~ emitsTrimmedLines [chunk]
  /\ splitLines chunk = [lit " a"]
  /\ snd (LineBuffer.flush (LineBuffer.mk (lit " a" ++ [CR]) 0))
     = [Line.mk (lit "a") 1].
Proof.
  cbv zeta. repeat split; try reflexivity.
  - right. right. left. reflexivity.
  - intros H.
    destruct (H (Line.mk (lit " a" ++ [CR]) 1)) as (_ & Hcr & _).
    + vm_compute. left. reflexivity.
    + apply Hcr. vm_compute. tauto.
Qed.

(** C6. Blank lines take no line number: over any chunk sequence the
    lines returned by the [processChunk] calls and the final [flush] are
    numbered 1, 2, ..., k in order; and scenario E returns exactly
    [(1, {"id":1})] and [(2, {"id":2})]. *)
Theorem line_numbers_consecutive :
  (forall chunks : list str,
     map Line.lineNumber (LineBuffer.run chunks) =
       map Z.of_nat (seq 1 (length (LineBuffer.run chunks))))
  /\ LineBuffer.run [scenarioE] = [Line.mk id1 1; Line.mk id2 2].
Proof.
  split; [|vm_compute; reflexivity].
  intros chunks. unfold LineBuffer.run.
  rewrite LineBufferFacts.feed_concat by (intros []).
  destruct (LineBufferFacts.processChunk_numbers LineBuffer.new (concat chunks))
    as [H1 H2].
  pose proof (LineBufferFacts.flush_numbers
                (fst (LineBuffer.processChunk LineBuffer.new (concat chunks)))) as H3.
  destruct (LineBuffer.processChunk LineBuffer.new (concat chunks)) as [b lines].
  cbn [fst snd] in *. rewrite map_app, length_app, H1, H3, H2.
  change (LineBuffer.lineNumber LineBuffer.new) with 0.
  rewrite <- (LineBufferFacts.countFrom_app 0). unfold countFrom.
  apply map_ext. intros i. lia.
Qed.

(** C9. [flush] leaves the buffer as it is: when the trimmed buffer is
    not empty, two calls in a row each return one line, with the same
    trimmed text and the numbers n+1 and n+2. *)
Theorem flush_twice (b : LineBuffer.t) :
  trim (LineBuffer.buffer b) <> [] ->
  let b1 := fst (LineBuffer.flush b) in
  let b2 := fst (LineBuffer.flush b1) in
  snd (LineBuffer.flush b) =
    [Line.mk (trim (LineBuffer.buffer b)) (LineBuffer.lineNumber b + 1)]
  /\ snd (LineBuffer.flush b1) =
       [Line.mk (trim (LineBuffer.buffer b)) (LineBuffer.lineNumber b + 2)]
  /\ LineBuffer.buffer b1 = LineBuffer.buffer b
  /\ LineBuffer.buffer b2 = LineBuffer.buffer b.
Proof.
  intros Hne. cbv zeta.
  rewrite (LineBufferFacts.flush_nonblank b Hne). cbn [fst snd].
  rewrite LineBufferFacts.flush_nonblank by exact Hne.
  cbn [fst snd LineBuffer.buffer LineBuffer.lineNumber].
  replace (LineBuffer.lineNumber b + 1 + 1) with (LineBuffer.lineNumber b + 2) by lia.
  repeat split; reflexivity.
Qed.

Lemma flush_twice_witness :
  let b := LineBuffer.mk (lit " x ") 4 in
  snd (LineBuffer.flush b) = [Line.mk (lit "x") 5]
  /\ snd (LineBuffer.flush (fst (LineBuffer.flush b))) = [Line.mk (lit "x") 6].
Proof.
  destruct (flush_twice (LineBuffer.mk (lit " x ") 4)) as (H1 & H2 & _).
  - vm_compute. discriminate.
  - split; [exact H1|exact H2].
Defined.

(** C3 as the specification states it fails: in ["ab\ncd"], of length 5,
    position 9 is located at line 1, column 1, not at line 2 (the last),
    column 3. *)
Lemma past_end_is_not_last_line :
  let input := lit "ab" ++ [LF] ++ lit "cd" in
  len input < 9
  /\ getLineColumn input 9 = {| line := 1; column := 1 |}
  /\ lastLineLocation input = {| line := 2; column := 3 |}
  /\ getLineColumn input 9 <> lastLineLocation input.
Proof.
  cbv zeta. repeat split; try reflexivity. vm_compute. discriminate.
Qed.

(** C3, amended. For a position strictly greater than the length of the
    text, [getLineColumn] returns line 1, column 1 and [buildSnippet]
    returns the text itself; neither fails. *)
Theorem getLineColumn_past_end (input : str) (position : Z) :
  len input < position ->
  getLineColumn input position = {| line := 1; column := 1 |}
  /\ buildSnippet input position = Some input.
Proof.
  intros H. unfold getLineColumn, buildSnippet. split.
  - apply getLineColumnLoop_beyond. rewrite span_split. lia.
  - apply buildSnippetLoop_beyond. rewrite span_split. lia.
Qed.

Lemma getLineColumn_past_end_witness :
  getLineColumn (lit "ab" ++ [LF] ++ lit "cd") 9 = {| line := 1; column := 1 |}
  /\ buildSnippet (lit "ab" ++ [LF] ++ lit "cd") 9
     = Some (lit "ab" ++ [LF] ++ lit "cd").
Proof.
  apply (getLineColumn_past_end (lit "ab" ++ [LF] ++ lit "cd") 9).
  vm_compute. reflexivity.
Defined.

(** The position inside the text, or at its end, in terms of the text
    before it. *)
Lemma locate_inside (input : str) (position : Z) :
  0 <= position <= len input ->
  let before := firstn (Z.to_nat position) input in
  let l := nth (countLF before) (split input) [] in
  let k := len (last (split before) []) in
  k <= len l
  /\ In l (split input)
  /\ getLineColumn input position =
       {| line := Z.of_nat (countLF before) + 1; column := k + 1 |}
  /\ buildSnippet input position =
       Some (l ++ [LF] ++ List.repeat SPACE (Z.to_nat k) ++ [CARET]).
Proof.
  intros Hpos. cbv zeta.
  set (before := firstn (Z.to_nat position) input).
  set (after := skipn (Z.to_nat position) input).
  assert (Einput : input = before ++ after)
    by (symmetry; apply firstn_skipn).
  assert (Hlen : len before = position).
  { unfold before, len in *. rewrite length_firstn. lia. }
  set (ls1 := removelast (split before)).
  set (l := last (split before) [] ++ hd [] (split after)).
  assert (Esplit : split input = ls1 ++ l :: tl (split after))
    by (rewrite Einput at 1; apply split_app).
  assert (Enth : nth (countLF before) (split input) [] = l).
  { rewrite Esplit, <- (length_removelast_split before). fold ls1.
    rewrite nth_middle. reflexivity. }
  assert (Hk : 0 <= len (last (split before) []) <= len l).
  { unfold l. rewrite len_app.
    pose proof (len_nonneg (last (split before) [])).
    pose proof (len_nonneg (hd [] (split after))). lia. }
  assert (Epos : position = 0 + span ls1 + len (last (split before) [])).
  { unfold ls1. rewrite Z.add_0_l, span_before. symmetry. exact Hlen. }
  rewrite Enth. split; [lia|]. split.
  { rewrite Esplit, in_app_iff. right. left. reflexivity. }
  unfold getLineColumn, buildSnippet. rewrite Esplit. split.
  - rewrite Epos at 1. rewrite getLineColumnLoop_found by exact Hk.
    unfold ls1. rewrite length_removelast_split. f_equal.
  - rewrite Epos at 1. apply buildSnippetLoop_found. exact Hk.
Qed.

(** C8. For an offset inside the text, [getLineColumn] returns the
    1-based line and column of the offset (the line feeds before it, plus
    one; the characters of its line before it, plus one), and
    [buildSnippet] returns exactly two lines joined by a line feed: that
    line of the text, then column - 1 spaces and a caret.  In scenario C,
    offset 10: line 1, column 11, and a second line of 10 spaces and a
    caret. *)
Theorem locator_inside_text :
  (forall (input : str) (position : Z),
     0 <= position < len input ->
     let before := firstn (Z.to_nat position) input in
     let lc := getLineColumn input position in
     let sourceLine := nth (Z.to_nat (line lc - 1)) (split input) [] in
     let caretLine := List.repeat SPACE (Z.to_nat (column lc - 1)) ++ [CARET] in
     line lc = Z.of_nat (countLF before) + 1
     /\ column lc = len (last (split before) []) + 1
     /\ 1 <= line lc <= Z.of_nat (length (split input))
     /\ 1 <= column lc <= len sourceLine + 1
     /\ buildSnippet input position = Some (sourceLine ++ [LF] ++ caretLine)
     /\ split (sourceLine ++ [LF] ++ caretLine) = [sourceLine; caretLine])
  /\ getLineColumn scenarioC 10 = {| line := 1; column := 11 |}
  /\ buildSnippet scenarioC 10 =
       Some (scenarioC ++ [LF] ++ List.repeat SPACE 10 ++ [CARET]).
Proof.
  split; [|split; vm_compute; reflexivity].
  intros input position Hpos. cbv zeta.
  destruct (locate_inside input position ltac:(lia)) as (Hk & Hin & Hlc & Hsn).
  rewrite Hlc. cbn [line column].
  set (before := firstn (Z.to_nat position) input) in *.
  set (k := len (last (split before) [])) in *.
  replace (Z.to_nat (Z.of_nat (countLF before) + 1 - 1)) with (countLF before) by lia.
  replace (k + 1 - 1) with k by lia.
  set (l := nth (countLF before) (split input) []) in *.
  assert (Hk0 : 0 <= k) by apply len_nonneg.
  assert (Hcount : (countLF before <= countLF input)%nat).
  { assert (E : (countLF input
                  = countLF before + countLF (skipn (Z.to_nat position) input))%nat).
    { unfold countLF, before. rewrite <- count_occ_app, firstn_skipn. reflexivity. }
    lia. }
  rewrite length_split.
  repeat split; try lia; try exact Hsn.
  change (l ++ [LF] ++ List.repeat SPACE (Z.to_nat k) ++ [CARET])
    with (l ++ LF :: List.repeat SPACE (Z.to_nat k) ++ [CARET]).
  rewrite split_app_lf, split_no_lf by exact (split_pieces_no_lf _ _ Hin).
  rewrite split_no_lf; [reflexivity|].
  rewrite in_app_iff. intros [H|[H|[]]]; [|discriminate].
  apply repeat_spec in H. discriminate.
Qed.

Lemma locator_inside_text_witness :
  getLineColumn (lit "ab" ++ [LF] ++ lit "cd") 4 = {| line := 2; column := 2 |}
  /\ buildSnippet (lit "ab" ++ [LF] ++ lit "cd") 4
     = Some (lit "cd" ++ [LF] ++ lit " ^").
Proof.
  destruct (proj1 locator_inside_text (lit "ab" ++ [LF] ++ lit "cd") 4)
    as (H1 & H2 & _ & _ & H5 & _).
  - vm_compute. split; [discriminate|reflexivity].
  - split; [|exact H5].
    destruct (getLineColumn (lit "ab" ++ [LF] ++ lit "cd") 4) as [ln col].
    cbn [line column] in H1, H2. rewrite H1, H2. reflexivity.
Defined.

(** C4. [stripComments] keeps the number of line feeds of its input. *)
Theorem stripComments_preserves_line_feeds (input : str) :
  countLF (stripComments input) = countLF input.
Proof.
  unfold stripComments. apply (scan_countLF_bounded (length input)). lia.
Qed.

(** C10. [stripComments] is idempotent. *)
Theorem stripComments_idempotent (input : str) :
  stripComments (stripComments input) = stripComments input.
Proof.
  unfold stripComments.
  apply (scan_scan_bounded (length input) input normal); [lia|constructor].
Qed.

(** C5. A text is read as plain characters, string literals and
    comments.  Exactly when it does not end inside a string literal or a
    block comment left open, [stripComments] returns it without its
    comments: a comment opener inside a string literal is not removed,
    the literal being copied as it stands (scenario B comes out
    unchanged), and a comment opener outside string literals is removed
    with its comment, up to the end of the line for a line comment, up to
    and with the closing star-slash for a block comment, the line feeds
    staying. *)
Theorem stripComments_strips_comments_only :
  (forall input output : str,
     Stripped input output -> stripComments input = output)
  /\ (forall input : str,
        ~ Unclosed input <-> Stripped input (stripComments input))
  /\ stripComments scenarioB = scenarioB.
Proof.
  assert (H : forall input output : str,
            Stripped input output -> stripComments input = output).
  { intros input output H. unfold stripComments. apply Stripped_scan, H. }
  split; [exact H|]. split; [|vm_compute; reflexivity].
  intros input. split.
  - intros Hclosed.
    destruct (Stripped_or_Unclosed_bounded (length input) input (le_n _))
      as [[out Hout]|Hu]; [|contradiction].
    rewrite (H input out Hout). exact Hout.
  - apply Stripped_not_Unclosed.
Qed.

Lemma stripComments_strips_comments_only_witness :
  stripComments mixedText = mixedText_stripped.
Proof.
  apply (proj1 stripComments_strips_comments_only).
  unfold mixedText, mixedText_stripped.
  apply (stripped_string (lit "/*//")).
  { repeat (apply body_char; [discriminate|discriminate|]). apply body_nil. }
  apply (stripped_block (lit "a" ++ [LF] ++ lit "b") _ (lit "1" ++ LF :: lit "2")).
  { apply hasBlockEnd_false. reflexivity. }
  apply stripped_plain; [discriminate|intros [r [H|H]]; discriminate|].
  apply (stripped_line (lit "c")).
  { intros [H|[]]. discriminate. }
  apply stripped_plain; [discriminate|intros [r [H|H]]; discriminate|].
  apply stripped_end.
Defined.

(** * Further properties *)

(** ** Trimming *)

Lemma trimStart_app (l t : str) :
  trimStart (l ++ t) =
    if allWhiteSpace l then trimStart t else trimStart l ++ t.
Proof.
  induction l as [|c l IH]; [reflexivity|].
  cbn [app trimStart allWhiteSpace forallb].
  destruct (isWhiteSpace c); [exact IH|reflexivity].
Qed.

Lemma trimStart_nil_iff (s : str) :
  trimStart s = [] <-> allWhiteSpace s = true.
Proof.
  induction s as [|c s IH]; [split; reflexivity|].
  cbn [trimStart allWhiteSpace forallb].
  destruct (isWhiteSpace c); [exact IH|split; discriminate].
Qed.

(** What [trimStart] leaves is empty or starts with a character that is
    not white space. *)
Lemma trimStart_head (s : str) :
  trimStart s = []
  \/ exists c t, trimStart s = c :: t /\ isWhiteSpace c = false.
Proof.
  induction s as [|c s IH]; [left; reflexivity|].
  cbn [trimStart]. destruct (isWhiteSpace c) eqn:E; [exact IH|].
  right. exists c, s. split; [reflexivity|exact E].
Qed.

Lemma trimStart_fixed (c : char) (t : str) :
  isWhiteSpace c = false -> trimStart (c :: t) = c :: t.
Proof. intros H. cbn [trimStart]. rewrite H. reflexivity. Qed.

Lemma allWhiteSpace_rev (s : str) : allWhiteSpace (rev s) = allWhiteSpace s.
Proof.
  unfold allWhiteSpace. induction s as [|c s IH]; [reflexivity|].
  cbn [rev forallb]. rewrite forallb_app, IH. cbn [forallb].
  rewrite andb_true_r. apply andb_comm.
Qed.

Lemma allWhiteSpace_app (s t : str) :
  allWhiteSpace (s ++ t) = allWhiteSpace s && allWhiteSpace t.
Proof. apply forallb_app. Qed.

(** What [trimEnd] leaves of a string that starts with a character that
    is not white space starts with that character and is not trimmed
    further. *)
Lemma trimEnd_keeps_head (c : char) (t : str) :
  isWhiteSpace c = false ->
  exists t', trimEnd (c :: t) = c :: t'
             /\ trimStart (rev (c :: t')) = rev (c :: t').
Proof.
  intros Hc. unfold trimEnd. cbn [rev]. rewrite trimStart_app.
  destruct (allWhiteSpace (rev t)) eqn:E.
  - exists []. cbn [rev app]. rewrite trimStart_fixed by exact Hc.
    split; reflexivity.
  - destruct (trimStart_head (rev t)) as [H|(d & u & H & Hd)].
    + apply trimStart_nil_iff in H. congruence.
    + exists (rev (d :: u)). rewrite H, rev_app_distr. cbn [rev app].
      split; [reflexivity|].
      rewrite rev_app_distr, rev_involutive. cbn [rev app].
      apply trimStart_fixed, Hd.
Qed.

(** [trim] is empty exactly on white space. *)
Lemma trim_nil_iff (s : str) : trim s = [] <-> allWhiteSpace s = true.
Proof.
  unfold trim. destruct (trimStart_head s) as [H|(c & t & H & Hc)].
  - rewrite H. cbn. split; [intros _; apply trimStart_nil_iff, H|reflexivity].
  - rewrite H. destruct (trimEnd_keeps_head c t Hc) as (t' & E & _).
    rewrite E. split; [discriminate|].
    intros Ha. apply trimStart_nil_iff in Ha. congruence.
Qed.

Lemma trim_idempotent (s : str) : trim (trim s) = trim s.
Proof.
  unfold trim. destruct (trimStart_head s) as [H|(c & t & H & Hc)].
  - rewrite H. reflexivity.
  - rewrite H. destruct (trimEnd_keeps_head c t Hc) as (t' & E & Hfix).
    rewrite E, trimStart_fixed by exact Hc.
    unfold trimEnd. rewrite Hfix. apply rev_involutive.
Qed.

(** A white space character at the end is trimmed away. *)
Lemma trim_app_white (s : str) (c : char) :
  isWhiteSpace c = true -> trim (s ++ [c]) = trim s.
Proof.
  intros Hc. unfold trim. rewrite trimStart_app.
  destruct (allWhiteSpace s) eqn:E.
  - cbn [trimStart]. rewrite Hc. apply trimStart_nil_iff in E. rewrite E.
    reflexivity.
  - unfold trimEnd. rewrite rev_app_distr. cbn [rev app trimStart].
    rewrite Hc. reflexivity.
Qed.

Lemma nonBlank_false_iff (s : str) :
  nonBlank s = false <-> allWhiteSpace s = true.
Proof.
  unfold nonBlank. rewrite <- trim_nil_iff. split.
  - intros H. apply Z.ltb_ge in H. destruct (trim s); [reflexivity|].
    rewrite len_cons in H. pose proof (len_nonneg s0). lia.
  - intros ->. reflexivity.
Qed.

Lemma nonBlank_trim (s : str) : nonBlank (trim s) = nonBlank s.
Proof. unfold nonBlank. rewrite trim_idempotent. reflexivity. Qed.

(** ** The lines of a text *)

Lemma split_last_lf (pre post : str) :
  ~ In LF post ->
  removelast (split (pre ++ LF :: post)) = split pre
  /\ last (split (pre ++ LF :: post)) [] = post.
Proof.
  intros Hn. rewrite split_app_lf, (split_no_lf post Hn).
  split; [apply removelast_last|apply last_last].
Qed.

Lemma split_last_no_lf (s : str) :
  ~ In LF s -> removelast (split s) = [] /\ last (split s) [] = s.
Proof. intros Hn. rewrite (split_no_lf s Hn). split; reflexivity. Qed.

Lemma last_split_In (s : str) : In (last (split s) []) (split s).
Proof.
  pose proof (split_not_nil s) as Hne.
  induction (split s) as [|l ls IH]; [congruence|].
  destruct ls as [|l2 ls]; [left; reflexivity|].
  right. apply IH. discriminate.
Qed.

Lemma numberLines_app (ls1 ls2 : list str) (n : Z) :
  numberLines n (ls1 ++ ls2) =
    numberLines n ls1 ++ numberLines (n + Z.of_nat (length ls1)) ls2.
Proof.
  revert n. induction ls1 as [|l ls1 IH]; intros n.
  - cbn [app length numberLines]. replace (n + Z.of_nat 0) with n by lia.
    reflexivity.
  - cbn [app length numberLines]. rewrite IH. do 3 f_equal. lia.
Qed.

Lemma numberLines_trim (ls : list str) (n : Z) :
  map trimLine (numberLines n ls) = numberLines n (map trim ls).
Proof.
  revert n. induction ls as [|l ls IH]; intros n; [reflexivity|].
  cbn [numberLines map]. rewrite IH. reflexivity.
Qed.

Module LineBufferMore.
Import LineBuffer.

(** The loop of [processChunk] numbers the lines that are not blank. *)
Lemma pushLines_numberLines (ls : list str) (n : Z) :
  pushLines ls n =
    (numberLines n (filter nonBlank ls),
     n + Z.of_nat (length (filter nonBlank ls))).
Proof.
  revert n. induction ls as [|l ls IH]; intros n.
  - cbn [pushLines filter numberLines length].
    replace (n + Z.of_nat 0) with n by lia. reflexivity.
  - cbn [pushLines filter]. change (0 <? len (trim l)) with (nonBlank l).
    destruct (nonBlank l).
    + rewrite IH. cbn [numberLines length].
      replace (n + 1 + Z.of_nat (length (filter nonBlank ls)))
        with (n + Z.of_nat (S (length (filter nonBlank ls)))) by lia.
      reflexivity.
    + apply IH.
Qed.

(** One call on a whole text, from a fresh buffer. *)
Lemma processChunk_new (text : str) :
  processChunk new text =
    ({| buffer := last (split text) [];
        lineNumber :=
          Z.of_nat (length (filter nonBlank (removelast (split text)))) |},
     numberLines 0 (filter nonBlank (removelast (split text)))).
Proof.
  destruct (last_lf_decomp text) as [Hn|(pre & post & -> & Hn)].
  - rewrite LineBufferFacts.processChunk_no_lf by exact Hn.
    destruct (split_last_no_lf text Hn) as [-> ->]. reflexivity.
  - rewrite (LineBufferFacts.processChunk_lf new _ pre post eq_refl Hn).
    destruct (split_last_lf pre post Hn) as [-> ->].
    rewrite pushLines_numberLines. reflexivity.
Qed.

Lemma feed_new (chunks : list str) :
  feed new chunks = processChunk new (concat chunks).
Proof. apply LineBufferFacts.feed_concat. intros []. Qed.

Lemma flush_flushedTail (b : t) :
  snd (flush b) =
    numberLines (lineNumber b) (flushedTail (buffer b)).
Proof.
  unfold flush, flushedTail, nonBlank.
  destruct (0 <? len (trim (buffer b))); reflexivity.
Qed.

End LineBufferMore.

(** X2. The pending buffer is the unterminated tail of the text received so
    far, whatever its chunks: what follows the last line feed.  It holds
    no line feed, and the counter is the number of terminated lines that
    are not blank. *)
Theorem feed_buffer_is_tail (chunks : list str) :
  let b := fst (LineBuffer.feed LineBuffer.new chunks) in
  let text := concat chunks in
  LineBuffer.buffer b = last (split text) []
  /\ ~ In LF (LineBuffer.buffer b)
  /\ LineBuffer.lineNumber b =
       Z.of_nat (length (filter nonBlank (removelast (split text)))).
Proof.
  cbv zeta. rewrite LineBufferMore.feed_new, LineBufferMore.processChunk_new.
  cbn [fst LineBuffer.buffer LineBuffer.lineNumber].
  repeat split.
  apply (split_pieces_no_lf (concat chunks)), last_split_In.
Qed.

Lemma run_numberLines (chunks : list str) :
  LineBuffer.run chunks =
    numberLines 0 (filter nonBlank (removelast (split (concat chunks)))
                   ++ flushedTail (last (split (concat chunks)) [])).
Proof.
  unfold LineBuffer.run.
  rewrite LineBufferMore.feed_new, LineBufferMore.processChunk_new.
  rewrite LineBufferMore.flush_flushedTail.
  cbn [LineBuffer.buffer LineBuffer.lineNumber].
  rewrite numberLines_app. reflexivity.
Qed.

(** One call on a text, from any buffer: the lines are cut in what is
    pending with the text after it. *)
Lemma processChunk_pending (b : LineBuffer.t) (text : str) :
  LineBuffer.processChunk b text =
    ({| LineBuffer.buffer := last (split (LineBuffer.buffer b ++ text)) [];
        LineBuffer.lineNumber :=
          LineBuffer.lineNumber b
          + Z.of_nat (length (filter nonBlank
               (removelast (split (LineBuffer.buffer b ++ text))))) |},
     numberLines (LineBuffer.lineNumber b)
       (filter nonBlank (removelast (split (LineBuffer.buffer b ++ text))))).
Proof.
  destruct (last_lf_decomp (LineBuffer.buffer b ++ text))
    as [Hn|(pre & post & E & Hn)].
  - rewrite LineBufferFacts.processChunk_no_lf by exact Hn.
    destruct (split_last_no_lf _ Hn) as [-> ->].
    cbn [filter length numberLines]. do 2 f_equal. lia.
  - rewrite (LineBufferFacts.processChunk_lf b _ pre post E Hn), E.
    destruct (split_last_lf pre post Hn) as [-> ->].
    rewrite LineBufferMore.pushLines_numberLines. reflexivity.
Qed.

Lemma parseStreamCreated_new : parseStreamCreated = (LineBuffer.new, []).
Proof. reflexivity. Qed.

Lemma parseStreamRun_pending (b : LineBuffer.t) (chunks : list str) :
  ~ In LF (LineBuffer.buffer b) ->
  parseStreamRun b chunks =
    LineBuffer.processChunk b (concat chunks).
Proof.
  intros Hn. unfold parseStreamRun.
  rewrite (LineBufferFacts.feed_concat chunks b Hn), parseStreamCreated_new.
  destruct (LineBuffer.processChunk b (concat chunks)) as [b' lines].
  cbn [snd]. rewrite app_nil_r. reflexivity.
Qed.

(** X1. The lines of a whole stream, chunks then [flush]: the terminated
    lines of the text that are not blank, as they stand, then the trim of
    the unterminated tail when it is not blank, numbered from 1. *)
Theorem run_lines (chunks : list str) :
  let text := concat chunks in
  LineBuffer.run chunks =
    numberLines 0 (filter nonBlank (removelast (split text))
                   ++ flushedTail (last (split text) [])).
Proof. exact (run_numberLines chunks). Qed.



(** ** The batch path: [splitLines] *)

Lemma upToCR_cons (c : char) (l' l : str) :
  upToCR l' l -> upToCR (c :: l') (c :: l).
Proof. intros [->| ->]; [left|right]; reflexivity. Qed.

Lemma upToCR_trim (l' l : str) : upToCR l' l -> trim l' = trim l.
Proof.
  intros [->| ->]; [reflexivity|]. symmetry. apply trim_app_white. reflexivity.
Qed.

Lemma upToCR_nonBlank (l' l : str) : upToCR l' l -> nonBlank l' = nonBlank l.
Proof. intros H. unfold nonBlank. rewrite (upToCR_trim _ _ H). reflexivity. Qed.

(** Replacing the carriage returns before line feeds takes one carriage
    return from the end of the lines that had one there, and no more. *)
Lemma split_replaceCRLF_bounded (n : nat) :
  forall s : str, (length s <= n)%nat ->
    Forall2 upToCR (split (replaceCRLF s)) (split s).
Proof.
  induction n as [|n IH]; intros s Hn.
  - destruct s; [|cbn in Hn; lia]. repeat constructor.
  - destruct s as [|c rest]; [repeat constructor|]. cbn [length] in Hn.
    cbn [replaceCRLF]. destruct (ceq c CR && nextCharIs rest LF) eqn:E.
    + apply andb_true_iff in E. destruct E as [Hc Hr].
      apply ceq_true in Hc. subst c. destruct rest as [|d r]; [discriminate|].
      rewrite nextCharIs_cons in Hr. apply ceq_true in Hr. subst d.
      cbn [length] in Hn.
      change (split (CR :: LF :: r)) with ([CR] :: split r).
      rewrite split_cons_lf. constructor; [right; reflexivity|].
      apply IH. lia.
    + specialize (IH rest ltac:(lia)).
      destruct (N.eq_dec c LF) as [->|Hc].
      * rewrite !split_cons_lf. constructor; [left; reflexivity|exact IH].
      * destruct (split_cons_other c (replaceCRLF rest) Hc) as (l' & ls' & E1' & E2').
        destruct (split_cons_other c rest Hc) as (l & ls & E1 & E2).
        rewrite E2', E2. rewrite E1', E1 in IH. inversion IH; subst.
        constructor; [apply upToCR_cons; assumption|assumption].
Qed.

Lemma split_replaceCRLF (s : str) :
  Forall2 upToCR (split (replaceCRLF s)) (split s).
Proof. apply (split_replaceCRLF_bounded (length s)). lia. Qed.

Lemma upToCR_filter_trim (ls' ls : list str) :
  Forall2 upToCR ls' ls ->
  map trim (filter nonBlank ls') = map trim (filter nonBlank ls).
Proof.
  induction 1 as [|l' l ls' ls H _ IH]; [reflexivity|].
  cbn [filter]. rewrite (upToCR_nonBlank _ _ H).
  destruct (nonBlank l); [|exact IH].
  cbn [map]. rewrite IH, (upToCR_trim _ _ H). reflexivity.
Qed.

Lemma upToCR_allWhiteSpace (l' l : str) :
  upToCR l' l -> allWhiteSpace l' = allWhiteSpace l.
Proof.
  intros [->| ->]; [reflexivity|].
  rewrite allWhiteSpace_app. cbn. rewrite andb_true_r. reflexivity.
Qed.

Lemma split_allWhiteSpace (s : str) :
  forallb allWhiteSpace (split s) = allWhiteSpace s.
Proof.
  induction s as [|c rest IH]; [reflexivity|].
  destruct (N.eq_dec c LF) as [->|Hc].
  - rewrite split_cons_lf. cbn [forallb]. rewrite IH. reflexivity.
  - destruct (split_cons_other c rest Hc) as (l & ls & E1 & E2).
    rewrite E2. rewrite E1 in IH. cbn [forallb allWhiteSpace] in *.
    fold (allWhiteSpace l) in *. fold (allWhiteSpace rest) in *.
    rewrite <- IH. rewrite andb_assoc. reflexivity.
Qed.

Lemma filter_nonBlank_nil (ls : list str) :
  filter nonBlank ls = [] <-> forallb allWhiteSpace ls = true.
Proof.
  induction ls as [|l ls IH]; [split; reflexivity|].
  cbn [filter forallb]. destruct (nonBlank l) eqn:E.
  - split; [discriminate|]. intros H. apply andb_true_iff in H.
    destruct H as [H _]. apply nonBlank_false_iff in H. congruence.
  - apply nonBlank_false_iff in E. rewrite E. exact IH.
Qed.

Lemma upToCR_forallb (ls' ls : list str) :
  Forall2 upToCR ls' ls ->
  forallb allWhiteSpace ls' = forallb allWhiteSpace ls.
Proof.
  induction 1 as [|l' l ls' ls H _ IH]; [reflexivity|].
  cbn [forallb]. rewrite IH, (upToCR_allWhiteSpace _ _ H). reflexivity.
Qed.

(** X5. No line of an input reaches the parser exactly when the input is
    white space only; [parseBatch] then returns the empty array. *)
Theorem splitLines_nil_iff (input : str) :
  splitLines input = [] <-> allWhiteSpace input = true.
Proof.
  unfold splitLines. cbv zeta. rewrite filter_nonBlank_nil.
  rewrite (upToCR_forallb _ _ (split_replaceCRLF input)), split_allWhiteSpace.
  reflexivity.
Qed.

Lemma chopCR_cons (c : char) (l : str) :
  l <> [] -> chopCR (c :: l) = c :: chopCR l.
Proof. destruct l; [congruence|reflexivity]. Qed.

Lemma split_head_nil (s : str) (l2 : str) (ls : list str) :
  split s = [] :: l2 :: ls -> nextCharIs s LF = true.
Proof.
  destruct s as [|d s]; [discriminate|]. intros E.
  destruct (N.eq_dec d LF) as [->|Hd]; [reflexivity|].
  destruct (split_cons_other d s Hd) as (l & ls' & _ & E2).
  rewrite E2 in E. discriminate.
Qed.

Lemma removelast_cons2 (l l2 : str) (ls : list str) :
  removelast (l :: l2 :: ls) = l :: removelast (l2 :: ls).
Proof. reflexivity. Qed.

Lemma last_cons2 (l l2 : str) (ls : list str) :
  last (l :: l2 :: ls) [] = last (l2 :: ls) [].
Proof. reflexivity. Qed.

(** [replace] then [split] gives the lines at the line feeds, each but
    the last without the carriage return at its end. *)
Lemma split_replaceCRLF_exact_bounded (n : nat) :
  forall s : str, (length s <= n)%nat ->
    split (replaceCRLF s) = normalizedLines s.
Proof.
  unfold normalizedLines.
  induction n as [|n IH]; intros s Hn.
  - destruct s; [reflexivity|cbn in Hn; lia].
  - destruct s as [|c rest]; [reflexivity|]. cbn [length] in Hn.
    cbn [replaceCRLF]. destruct (ceq c CR && nextCharIs rest LF) eqn:E.
    + apply andb_true_iff in E. destruct E as [Hc Hr].
      apply ceq_true in Hc. subst c. destruct rest as [|d r]; [discriminate|].
      rewrite nextCharIs_cons in Hr. apply ceq_true in Hr. subst d.
      cbn [length] in Hn.
      change (split (CR :: LF :: r)) with ([CR] :: split r).
      rewrite split_cons_lf, (IH r ltac:(lia)).
      destruct (split r) as [|l ls] eqn:Er; [exfalso; exact (split_not_nil _ Er)|].
      rewrite removelast_cons2, last_cons2. reflexivity.
    + specialize (IH rest ltac:(lia)).
      destruct (N.eq_dec c LF) as [->|Hc].
      * rewrite !split_cons_lf, IH.
        destruct (split rest) as [|l ls] eqn:Er;
          [exfalso; exact (split_not_nil _ Er)|].
        rewrite removelast_cons2, last_cons2. reflexivity.
      * destruct (split_cons_other c rest Hc) as (l & ls & E1 & E2).
        destruct (split_cons_other c (replaceCRLF rest) Hc)
          as (l' & ls' & E1' & E2').
        rewrite E2', E2. rewrite E1', E1 in IH.
        destruct ls as [|l2 ls].
        -- cbn in IH. injection IH as -> ->. reflexivity.
        -- rewrite removelast_cons2, last_cons2 in IH |- *.
           cbn [map app] in IH |- *. injection IH as -> ->.
           f_equal. symmetry.
           destruct l as [|d l]; [|apply chopCR_cons; discriminate].
           rewrite (split_head_nil rest l2 ls E1), andb_true_r in E.
           cbn [chopCR]. rewrite E. reflexivity.
Qed.

Lemma split_replaceCRLF_exact (s : str) :
  split (replaceCRLF s) = normalizedLines s.
Proof. apply (split_replaceCRLF_exact_bounded (length s)). lia. Qed.

Example splitLines_crlf :
  splitLines (lit "a" ++ [CR; LF] ++ lit "b" ++ [CR]) = [lit "a"; lit "b" ++ [CR]].
Proof. reflexivity. Qed.

Example splitLines_two_cr :
  splitLines (lit "a" ++ [CR; CR; LF]) = [lit "a" ++ [CR]].
Proof. reflexivity. Qed.

(** X6. [splitLines] returns exactly the lines of the input at its line
    feeds that are not blank, in order, each but the last without the
    carriage return at its end (the one that a line feed followed): a
    carriage return elsewhere stays, also at the end of a last line that
    no line feed follows.  Every line returned holds no line feed. *)
Theorem splitLines_lines (input : str) :
  splitLines input = filter nonBlank (normalizedLines input)
  /\ Forall (fun l => ~ In LF l /\ nonBlank l = true) (splitLines input).
Proof.
  split.
  - unfold splitLines. cbv zeta. rewrite split_replaceCRLF_exact. reflexivity.
  - apply Forall_forall. intros l Hl. unfold splitLines in Hl. cbv zeta in Hl.
    apply filter_In in Hl. destruct Hl as [Hl Hb].
    split; [exact (split_pieces_no_lf _ _ Hl)|exact Hb].
Qed.

(** X4. The batch path and the streaming path cut a text into the same
    lines with the same line numbers, up to the white space around each
    line: the lines of [parseBatch] and those of [processChunk] over any
    chunks of the text followed by [flush] have the same trimmed texts
    and the same numbers. *)
Theorem batch_and_stream_agree (chunks : list str) :
  map trimLine (LineBuffer.run chunks) =
    map trimLine (parseBatchLines (concat chunks)).
Proof.
  unfold LineBuffer.run.
  rewrite LineBufferMore.feed_new, LineBufferMore.processChunk_new.
  rewrite LineBufferMore.flush_flushedTail.
  cbn [LineBuffer.buffer LineBuffer.lineNumber].
  rewrite <- numberLines_app. unfold parseBatchLines, splitLines. cbv zeta.
  rewrite !numberLines_trim. f_equal.
  rewrite (upToCR_filter_trim _ _ (split_replaceCRLF (concat chunks))).
  rewrite (split_removelast_last (concat chunks)) at 3.
  rewrite filter_app, !map_app. f_equal.
  cbn [filter]. unfold flushedTail.
  destruct (nonBlank (last (split (concat chunks)) [])); [|reflexivity].
  cbn [map]. rewrite trim_idempotent. reflexivity.
Qed.

(** ** Locating a position, further *)

(** X7. At the end of the text, one past its last character, the position
    is on the last line, in the column after its last character, and the
    snippet points there. *)
Theorem locator_at_end (input : str) :
  let lastLine := last (split input) [] in
  getLineColumn input (len input) =
    {| line := Z.of_nat (length (split input)); column := len lastLine + 1 |}
  /\ buildSnippet input (len input) =
       Some (lastLine ++ [LF]
             ++ List.repeat SPACE (Z.to_nat (len lastLine)) ++ [CARET]).
Proof.
  cbv zeta. set (l := last (split input) []).
  set (ls1 := removelast (split input)).
  assert (Hk : 0 <= len l <= len l) by (pose proof (len_nonneg l); lia).
  assert (Epos : len input = 0 + span ls1 + len l)
    by (unfold l, ls1; rewrite Z.add_0_l, span_before; reflexivity).
  assert (Esplit : split input = ls1 ++ l :: [])
    by apply split_removelast_last.
  unfold getLineColumn, buildSnippet. rewrite Esplit, Epos. split.
  - rewrite getLineColumnLoop_found by exact Hk. f_equal.
    rewrite length_app. cbn [length]. lia.
  - apply buildSnippetLoop_found. exact Hk.
Qed.

(** X8. The line and the column give the position back: the position is the
    text of the lines before, each with its line feed, and the column
    less one. *)
Theorem getLineColumn_inverse (input : str) (position : Z) :
  0 <= position <= len input ->
  let lc := getLineColumn input position in
  span (firstn (Z.to_nat (line lc - 1)) (split input)) + (column lc - 1)
    = position.
Proof.
  intros Hpos. cbv zeta.
  set (before := firstn (Z.to_nat position) input).
  set (after := skipn (Z.to_nat position) input).
  assert (Hlen : len before = position).
  { unfold before, len in *. rewrite length_firstn. lia. }
  assert (Esplit : split input =
            removelast (split before)
            ++ (last (split before) [] ++ hd [] (split after)) :: tl (split after)).
  { rewrite <- (split_app before after). unfold before, after.
    rewrite firstn_skipn. reflexivity. }
  destruct (locate_inside input position Hpos) as (_ & _ & Hlc & _).
  fold before in Hlc. rewrite Hlc. cbn [line column].
  replace (Z.to_nat (Z.of_nat (countLF before) + 1 - 1)) with (countLF before)
    by lia.
  rewrite Esplit, <- (length_removelast_split before).
  rewrite firstn_app, Nat.sub_diag, firstn_all. cbn [firstn].
  rewrite app_nil_r. pose proof (span_before before). lia.
Qed.

Lemma getLineColumn_inverse_witness :
  span (firstn 1 (split (lit "ab" ++ [LF] ++ lit "cd"))) + (2 - 1) = 4.
Proof.
  exact (getLineColumn_inverse (lit "ab" ++ [LF] ++ lit "cd") 4
           ltac:(vm_compute; split; discriminate)).
Defined.

(** X9. For a position that is not negative, the only ones the callers
    pass, [buildSnippet] returns a snippet and the line and the column
    are at least 1, the line at most the number of lines. *)
Theorem locator_nonnegative (input : str) (position : Z) :
  0 <= position ->
  let lc := getLineColumn input position in
  (exists snippet, buildSnippet input position = Some snippet)
  /\ 1 <= line lc <= Z.of_nat (length (split input))
  /\ 1 <= column lc.
Proof.
  intros Hpos. cbv zeta.
  assert (Hlines : 1 <= Z.of_nat (length (split input)))
    by (rewrite length_split; lia).
  destruct (Z.le_gt_cases position (len input)) as [Hle|Hgt].
  - destruct (locate_inside input position ltac:(lia)) as (_ & _ & Hlc & Hsn).
    rewrite Hlc. cbn [line column]. split; [eexists; exact Hsn|].
    set (before := firstn (Z.to_nat position) input).
    assert (Hcount : (countLF before <= countLF input)%nat).
    { assert (E : (countLF input
                    = countLF before + countLF (skipn (Z.to_nat position) input))%nat).
      { unfold before. rewrite <- countLF_app, firstn_skipn. reflexivity. }
      lia. }
    rewrite length_split.
    pose proof (len_nonneg (last (split before) [])). lia.
  - unfold getLineColumn, buildSnippet.
    rewrite getLineColumnLoop_beyond, buildSnippetLoop_beyond
      by (rewrite span_split; lia).
    cbn [line column]. split; [eexists; reflexivity|lia].
Qed.

Lemma locator_nonnegative_witness :
  (exists snippet, buildSnippet scenarioC 10 = Some snippet)
  /\ 1 <= line (getLineColumn scenarioC 10)
       <= Z.of_nat (length (split scenarioC))
  /\ 1 <= column (getLineColumn scenarioC 10).
Proof.
  apply (locator_nonnegative scenarioC 10). lia.
Defined.

(** X10. For a negative position [buildSnippet] raises ([repeat] is given a
    negative count) and [getLineColumn] returns line 1 with a column
    below 1. *)
Theorem locator_negative (input : str) (position : Z) :
  position < 0 ->
  buildSnippet input position = None
  /\ getLineColumn input position =
       {| line := 1; column := position + 1 |}.
Proof.
  intros Hneg. unfold buildSnippet, getLineColumn.
  destruct (split input) as [|l ls] eqn:E; [exfalso; exact (split_not_nil _ E)|].
  cbn [buildSnippetLoop getLineColumnLoop]. pose proof (len_nonneg l).
  destruct (Z.geb_spec (0 + len l) position); [|lia].
  unfold repeat. destruct (Z.ltb_spec (position - 0) 0); [|lia].
  split; [reflexivity|]. f_equal. lia.
Qed.

Lemma locator_negative_witness :
  buildSnippet scenarioC (-1) = None
  /\ getLineColumn scenarioC (-1) = {| line := 1; column := 0 |}.
Proof.
  apply (locator_negative scenarioC (-1)). lia.
Defined.

(** X11. On a text of one line, as [parseLine] has it, the line is 1 at
    every position; the column is the position plus one up to the end of
    the text, and 1 past it. *)
Theorem getLineColumn_single_line (text : str) (position : Z) :
  ~ In LF text ->
  let lc := getLineColumn text position in
  line lc = 1
  /\ (position <= len text -> column lc = position + 1)
  /\ (len text < position -> column lc = 1).
Proof.
  intros Hn. cbv zeta. unfold getLineColumn. rewrite (split_no_lf text Hn).
  cbn [getLineColumnLoop].
  destruct (Z.geb_spec (0 + len text) position); cbn [line column];
    repeat split; intros; lia.
Qed.

Lemma getLineColumn_single_line_witness :
  line (getLineColumn scenarioC 10) = 1
  /\ (10 <= len scenarioC -> column (getLineColumn scenarioC 10) = 10 + 1)
  /\ (len scenarioC < 10 -> column (getLineColumn scenarioC 10) = 1).
Proof.
  apply (getLineColumn_single_line scenarioC 10).
  vm_compute. intuition discriminate.
Defined.

(** ** Stripping comments, further *)

(** Whatever the flags, the scan only deletes characters, and none of
    them a line feed. *)
Lemma scan_KeptFrom_bounded (n : nat) :
  forall (s : str) (f : Flags),
    (length s <= n)%nat -> KeptFrom (scan f s) s.
Proof.
  induction n as [|n IH]; intros s f Hn.
  - destruct s; [constructor|cbn in Hn; lia].
  - destruct s as [|c rest]; [constructor|].
    cbn [length] in Hn.
    assert (IH1 : forall f', KeptFrom (scan f' rest) rest)
      by (intros; apply IH; lia).
    assert (IH2 : forall f' d rest', rest = d :: rest' ->
                    KeptFrom (scan f' rest') rest')
      by (intros f' d rest' ->; apply IH; cbn [length] in Hn; lia).
    cbn [scan]. scan_cases; try discriminate;
    try (destruct rest as [|d rest']; [discriminate|];
         rewrite nextCharIs_cons in *;
         repeat match goal with
           | H : ceq _ _ = true |- _ => apply ceq_true in H; subst
           end;
         apply kept_drop; [discriminate|];
         apply kept_drop; [discriminate|];
         exact (IH2 _ _ rest' eq_refl));
    try (apply kept_keep; apply IH1);
    try (apply kept_drop;
         [match goal with
          | H : ceq ?x LF = false |- _ => apply ceq_false in H; exact H
          end
         |apply IH1]).
Qed.

Lemma KeptFrom_lines (out inp : str) :
  KeptFrom out inp -> Forall2 Subseq (split out) (split inp).
Proof.
  induction 1 as [|c out inp _ IH|c out inp Hc _ IH].
  - repeat constructor.
  - destruct (N.eq_dec c LF) as [->|Hc].
    + rewrite !split_cons_lf. constructor; [constructor|exact IH].
    + destruct (split_cons_other c out Hc) as (l & ls & E1 & E2).
      destruct (split_cons_other c inp Hc) as (l2 & ls2 & E1' & E2').
      rewrite E2, E2'. rewrite E1, E1' in IH. inversion IH; subst.
      constructor; [apply subseq_keep; assumption|assumption].
  - destruct (split_cons_other c inp Hc) as (l2 & ls2 & E1' & E2').
    rewrite E2'. rewrite E1' in IH. inversion IH; subst.
    constructor; [apply subseq_drop; assumption|assumption].
Qed.

(** X12. [stripComments] keeps every line in its place: the output has the
    lines of the input, in order, each with some of its characters
    deleted; nothing is added, moved or joined to another line. *)
Theorem stripComments_keeps_lines (input : str) :
  Forall2 Subseq (split (stripComments input)) (split input).
Proof.
  apply KeptFrom_lines. unfold stripComments.
  apply (scan_KeptFrom_bounded (length input)). lia.
Qed.

Lemma hasOpener_tail (c : char) (rest : str) :
  hasOpener (c :: rest) = false ->
  ceq c SLASH && (nextCharIs rest SLASH || nextCharIs rest STAR) = false
  /\ hasOpener rest = false.
Proof. cbn [hasOpener]. apply orb_false_iff. Qed.

Lemma scan_no_opener (s : str) :
  hasOpener s = false ->
  scan normal s = s /\ scan inStr s = s /\ scan inStrEscaped s = s.
Proof.
  induction s as [|c rest IH]; intros Hno; [repeat split|].
  apply hasOpener_tail in Hno. destruct Hno as [Hc Hno].
  destruct (IH Hno) as (IHn & IHs & IHe). repeat split.
  - destruct (N.eq_dec c DQUOTE) as [->|Hq].
    + rewrite scan_normal_quote, IHs. reflexivity.
    + rewrite scan_normal_other by assumption. rewrite IHn. reflexivity.
  - destruct (N.eq_dec c BACKSLASH) as [->|Hb].
    { rewrite scan_inStr_backslash, IHe. reflexivity. }
    destruct (N.eq_dec c DQUOTE) as [->|Hq].
    { rewrite scan_inStr_quote, IHn. reflexivity. }
    rewrite scan_inStr_other by assumption. rewrite IHs. reflexivity.
  - rewrite scan_inStrEscaped, IHs. reflexivity.
Qed.

(** X13. A text in which no slash-slash and no slash-star occurs, inside or
    outside string literals, comes out unchanged. *)
Theorem stripComments_no_opener (input : str) :
  hasOpener input = false -> stripComments input = input.
Proof. intros H. exact (proj1 (scan_no_opener input H)). Qed.

Lemma stripComments_no_opener_witness : stripComments id1 = id1.
Proof. apply (stripComments_no_opener id1). vm_compute. reflexivity. Defined.

(** A string literal left open is copied to the end of the text. *)
Lemma scan_open_string (body : str) : openBody body -> scan inStr body = body.
Proof.
  induction 1 as [| |c body Hq Hb _ IH|c body _ IH].
  - reflexivity.
  - reflexivity.
  - rewrite scan_inStr_other by assumption. rewrite IH. reflexivity.
  - rewrite scan_inStr_backslash, scan_inStrEscaped, IH. reflexivity.
Qed.

(** A block comment left open is dropped to the end of the text, but for
    its line feeds. *)
Lemma scan_open_block (body : str) :
  noBlockEnd body -> scan inBlock body = lineFeedsOf body.
Proof.
  induction body as [|c body IH]; intros Hn; [reflexivity|].
  specialize (IH (noBlockEnd_tail _ _ Hn)).
  unfold lineFeedsOf in *. cbn [filter].
  destruct (N.eq_dec c LF) as [->|Hc].
  - rewrite ceq_refl, scan_inBlock_lf, IH. reflexivity.
  - rewrite (proj2 (ceq_false c LF) Hc). rewrite scan_inBlock_other.
    + exact IH.
    + exact Hc.
    + destruct (ceq c STAR) eqn:Hs; [|reflexivity]. cbn [andb].
      apply ceq_true in Hs. subst c.
      destruct body as [|d body]; [reflexivity|].
      rewrite nextCharIs_cons. apply ceq_false. intros ->.
      exact (Hn [] body eq_refl).
Qed.

Lemma StrippedOpen_scan (input output : str) :
  StrippedOpen input output -> scan normal input = output.
Proof.
  induction 1 as [body Hb|body Hn|c rest out Hq Ho _ IH|body rest out Hb _ IH
                  |body rest out Hn _ IH|body rest out Hn _ IH].
  - rewrite scan_normal_quote, scan_open_string by exact Hb. reflexivity.
  - rewrite scan_normal_block. apply scan_open_block, Hn.
  - rewrite scan_normal_other; [rewrite IH; reflexivity|exact Hq|].
    destruct (ceq c SLASH) eqn:Hs; [|reflexivity]. cbn [andb].
    apply ceq_true in Hs. subst c.
    destruct rest as [|d rest]; [reflexivity|].
    rewrite !nextCharIs_cons. apply orb_false_iff. split; apply ceq_false;
      intros ->; apply Ho; exists rest; [left|right]; reflexivity.
  - rewrite scan_normal_quote, scan_string_literal by exact Hb.
    rewrite IH. reflexivity.
  - rewrite scan_normal_line, scan_line_comment by exact Hn.
    rewrite IH. reflexivity.
  - rewrite scan_normal_block, scan_block_comment by exact Hn.
    rewrite IH. reflexivity.
Qed.

Lemma Unclosed_StrippedOpen (input : str) :
  Unclosed input -> exists output, StrippedOpen input output.
Proof.
  induction 1 as [body Hb|body Hn|c rest Hq Ho _ [out IH]|body rest Hb _ [out IH]
                  |body rest Hn _ [out IH]|body rest Hn _ [out IH]].
  - eexists. apply open_string, Hb.
  - eexists. apply open_block, Hn.
  - eexists. apply open_after_plain; eassumption.
  - eexists. apply open_after_string; eassumption.
  - eexists. apply open_after_line; eassumption.
  - eexists. apply open_after_block; eassumption.
Qed.

(** X14. A text that ends inside a string literal or a block comment left
    open is stripped without an error: up to there as any text, then the
    open string literal is copied to the end with the comment openers in
    it, and the open block comment is dropped to the end but for its line
    feeds. *)
Theorem stripComments_unclosed :
  (forall input output : str,
     StrippedOpen input output -> stripComments input = output)
  /\ (forall input : str,
        Unclosed input -> StrippedOpen input (stripComments input)).
Proof.
  assert (H : forall input output : str,
            StrippedOpen input output -> stripComments input = output).
  { intros input output H. unfold stripComments. apply StrippedOpen_scan, H. }
  split; [exact H|]. intros input Hu.
  destruct (Unclosed_StrippedOpen input Hu) as [out Hout].
  rewrite (H input out Hout). exact Hout.
Qed.

Lemma stripComments_unclosed_witness :
  stripComments (lit "1" ++ SLASH :: STAR :: lit "a" ++ [LF] ++ lit "b//")
  = lit "1" ++ [LF].
Proof.
  apply (proj1 stripComments_unclosed).
  apply open_after_plain; [discriminate|intros [r [H|H]]; discriminate|].
  apply (open_block (lit "a" ++ [LF] ++ lit "b//")).
  apply hasBlockEnd_false. reflexivity.
Defined.

(** ** Writing JSON Lines and reading them back *)

Lemma terminated_cons (t : str) (texts : list str) :
  terminated (t :: texts) = t ++ LF :: terminated texts.
Proof. unfold terminated. cbn [map concat]. app_norm. reflexivity. Qed.

Lemma split_terminated (texts : list str) :
  Forall (fun t => ~ In LF t) texts ->
  split (terminated texts) = texts ++ [[]].
Proof.
  induction 1 as [|t texts Ht _ IH]; [reflexivity|].
  rewrite terminated_cons, split_app_lf, (split_no_lf t Ht), IH. reflexivity.
Qed.

Lemma replaceCRLF_no_CR (s : str) : ~ In CR s -> replaceCRLF s = s.
Proof.
  induction s as [|c rest IH]; intros Hn; [reflexivity|].
  cbn [replaceCRLF].
  assert (Hc : ceq c CR = false)
    by (apply ceq_false; intros ->; apply Hn; left; reflexivity).
  rewrite Hc. cbn [andb]. rewrite IH; [reflexivity|].
  intros H. apply Hn. right. exact H.
Qed.

Lemma terminated_no_CR (texts : list str) :
  Forall (fun t => ~ In CR t) texts -> ~ In CR (terminated texts).
Proof.
  induction 1 as [|t texts Ht _ IH]; [intros []|].
  rewrite terminated_cons, in_app_iff. intros [H|[H|H]].
  - exact (Ht H).
  - discriminate.
  - exact (IH H).
Qed.

Lemma filter_nonBlank_all (texts : list str) :
  Forall (fun t => nonBlank t = true) texts -> filter nonBlank texts = texts.
Proof.
  induction 1 as [|t texts Ht _ IH]; [reflexivity|].
  cbn [filter]. rewrite Ht, IH. reflexivity.
Qed.

Lemma oneLine_parts (texts : list str) :
  Forall oneLine texts ->
  Forall (fun t => ~ In LF t) texts
  /\ Forall (fun t => ~ In CR t) texts
  /\ Forall (fun t => nonBlank t = true) texts.
Proof.
  intros H. repeat split; eapply Forall_impl; try exact H;
    intros t (H1 & H2 & H3); assumption.
Qed.

(** Texts of one line each, written with a line feed after each, are
    read back as they are by the batch path and, over any chunks, by the
    line buffer, numbered from 1; and by a run of the stream of
    [parseStream] on a buffer with nothing pending, numbered on from its
    counter. *)
Lemma terminated_read_back (texts : list str) :
  Forall oneLine texts ->
  parseBatchLines (terminated texts) = numberLines 0 texts
  /\ forall chunks : list str,
       concat chunks = terminated texts ->
       LineBuffer.run chunks = numberLines 0 texts
       /\ forall b : LineBuffer.t,
            LineBuffer.buffer b = [] ->
            parseStreamRun b chunks =
              ({| LineBuffer.buffer := [];
                  LineBuffer.lineNumber :=
                    LineBuffer.lineNumber b + Z.of_nat (length texts) |},
               numberLines (LineBuffer.lineNumber b) texts).
Proof.
  intros H. destruct (oneLine_parts texts H) as (Hlf & Hcr & Hnb).
  assert (Hrem : removelast (split (terminated texts)) = texts)
    by (rewrite (split_terminated texts Hlf); apply removelast_last).
  assert (Hlast : last (split (terminated texts)) [] = [])
    by (rewrite (split_terminated texts Hlf); apply last_last).
  split.
  - unfold parseBatchLines, splitLines. cbv zeta.
    rewrite (replaceCRLF_no_CR _ (terminated_no_CR texts Hcr)).
    rewrite (split_terminated texts Hlf), filter_app.
    rewrite (filter_nonBlank_all texts Hnb). cbn [filter].
    change (nonBlank []) with false. rewrite app_nil_r. reflexivity.
  - intros chunks E. split.
    + rewrite run_numberLines, E, Hrem, Hlast.
      rewrite (filter_nonBlank_all texts Hnb).
      change (flushedTail []) with (@nil str). rewrite app_nil_r.
      reflexivity.
    + intros b Hb.
      rewrite parseStreamRun_pending by (rewrite Hb; intros []).
      rewrite processChunk_pending, Hb. cbn [app].
      rewrite E, Hrem, Hlast, (filter_nonBlank_all texts Hnb). reflexivity.
Qed.

Section StringifyFacts.

Variable Value : Type.
Variable Thrown : Type.
Variable JSONstringify : Value -> Z -> Thrown + option str.
Variable instanceofError : Thrown -> bool.
Variable messageOf : Thrown -> str.
Variable StringOf : Thrown -> str.

Local Notation "'stringifyAll'" := (JsonLines.stringifyAll Value Thrown JSONstringify).
Local Notation "'stringifyError'" :=
  (JsonLines.stringifyError Thrown instanceofError messageOf StringOf).
Local Notation "'stringifyBatch'" :=
  (JsonLines.stringifyBatch Value Thrown JSONstringify instanceofError
     messageOf StringOf).
Local Notation "'stringifyStream'" :=
  (JsonLines.stringifyStream Value Thrown JSONstringify instanceofError
     messageOf StringOf).

Lemma join_terminated (t : str) (texts : list str) :
  JsonLines.join [LF] (map Some (t :: texts)) ++ [LF] = terminated (t :: texts).
Proof.
  revert t. induction texts as [|t2 texts IH]; intros t.
  - cbn. rewrite app_nil_r. reflexivity.
  - rewrite terminated_cons, <- IH. cbn [map JsonLines.join JsonLines.joinText].
    app_norm. reflexivity.
Qed.

Lemma stringifyBatch_texts (values : list Value)
    (options : option JsonLines.JsonLinesStringifyOptions) (texts : list str) :
  stringifyAll values (JsonLines.indentOf options) = inr (map Some texts) ->
  stringifyBatch values options = inr (terminated texts).
Proof.
  intros H. unfold JsonLines.stringifyBatch.
  destruct values as [|v values].
  - cbn in H. destruct texts; [reflexivity|discriminate].
  - rewrite H. destruct texts as [|t texts].
    + cbn in H. destruct (JSONstringify v _); [discriminate|].
      destruct (JsonLines.stringifyAll _ _ _ values _); discriminate.
    + rewrite join_terminated. reflexivity.
Qed.

Lemma stringifyStream_texts (values : list Value)
    (options : option JsonLines.JsonLinesStringifyOptions) (texts : list str) :
  stringifyAll values (JsonLines.indentOf options) = inr (map Some texts) ->
  stringifyStream values options = (map (fun t => t ++ [LF]) texts, None).
Proof.
  revert texts. induction values as [|v values IH]; intros texts H.
  - cbn in H. destruct texts; [reflexivity|discriminate].
  - cbn [JsonLines.stringifyAll] in H.
    cbn [JsonLines.stringifyStream]. unfold JsonLines.stringifyValue.
    destruct (JSONstringify v (JsonLines.indentOf options)) as [e|line];
      [discriminate|].
    destruct (stringifyAll values (JsonLines.indentOf options)) as [e|lines] eqn:E;
      [discriminate|].
    destruct texts as [|t texts]; [discriminate|].
    cbn [map] in H. injection H as -> ->.
    rewrite (IH texts eq_refl). reflexivity.
Qed.

(** X15. When [JSON.stringify] gives a string for every value, the string of
    [stringifyBatch] is the concatenation of the strings that
    [stringifyStream] emits for the same values, each JSON text with a
    line feed after it, and neither fails. *)
Theorem stringifyBatch_is_stream_concat (values : list Value)
    (options : option JsonLines.JsonLinesStringifyOptions) (texts : list str) :
  stringifyAll values (JsonLines.indentOf options) = inr (map Some texts) ->
  stringifyStream values options = (map (fun t => t ++ [LF]) texts, None)
  /\ stringifyBatch values options
     = inr (concat (fst (stringifyStream values options))).
Proof.
  intros H. rewrite (stringifyStream_texts values options texts H).
  split; [reflexivity|]. apply stringifyBatch_texts, H.
Qed.

(** X16. Both functions stop at the first value on which [JSON.stringify]
    throws, and report that error: [stringifyBatch] returns no string at
    all, [stringifyStream] has emitted the lines of the values before and
    emits nothing after. *)
Theorem stringify_first_failure (before : list Value) (value : Value)
    (after : list Value)
    (options : option JsonLines.JsonLinesStringifyOptions)
    (lines : list (option str)) (error : Thrown) :
  stringifyAll before (JsonLines.indentOf options) = inr lines ->
  JSONstringify value (JsonLines.indentOf options) = inl error ->
  stringifyBatch (before ++ value :: after) options
    = inl (stringifyError (lit "Failed to stringify JSONL: ") error)
  /\ stringifyStream (before ++ value :: after) options
     = (map (fun l => JsonLines.plusText l ++ [LF]) lines,
        Some (stringifyError (lit "Failed to stringify value: ") error)).
Proof.
  intros Hb Hv.
  assert (Hall : stringifyAll (before ++ value :: after)
                   (JsonLines.indentOf options) = inl error).
  { revert lines Hb. induction before as [|v before IH]; intros lines Hb.
    - cbn [app JsonLines.stringifyAll]. rewrite Hv. reflexivity.
    - cbn [app JsonLines.stringifyAll] in Hb |- *.
      destruct (JSONstringify v (JsonLines.indentOf options)); [discriminate|].
      destruct (stringifyAll before (JsonLines.indentOf options)) as [e|ls];
        [discriminate|].
      rewrite (IH ls eq_refl). reflexivity. }
  split.
  - unfold JsonLines.stringifyBatch. rewrite Hall.
    destruct (before ++ value :: after) eqn:E; [|reflexivity].
    destruct before; discriminate.
  - clear Hall. revert lines Hb.
    induction before as [|v before IH]; intros lines Hb.
    + cbn in Hb. injection Hb as <-.
      cbn [app JsonLines.stringifyStream]. unfold JsonLines.stringifyValue.
      rewrite Hv. reflexivity.
    + cbn [app JsonLines.stringifyAll JsonLines.stringifyStream] in Hb |- *.
      unfold JsonLines.stringifyValue at 1.
      destruct (JSONstringify v (JsonLines.indentOf options)) as [e|l];
        [discriminate|].
      destruct (stringifyAll before (JsonLines.indentOf options)) as [e|ls];
        [discriminate|].
      injection Hb as <-. rewrite (IH ls eq_refl). reflexivity.
Qed.

(** X17. What is written is read back line for line: when
    [JSON.stringify] gives for every value a text of one line (no line
    feed, no carriage return, not blank), [parseBatch] cuts the string of
    [stringifyBatch], and the line buffer cuts any chunks of it, into
    those texts, numbered from 1; and a run of the stream of
    [parseStream] over the strings of [stringifyStream], on a buffer
    with nothing pending, parses those texts, numbered on from the
    buffer's counter (from 1 on the first run), and leaves nothing
    pending. *)
Theorem stringify_then_split (values : list Value)
    (options : option JsonLines.JsonLinesStringifyOptions) (texts : list str) :
  stringifyAll values (JsonLines.indentOf options) = inr (map Some texts) ->
  Forall oneLine texts ->
  exists text,
    stringifyBatch values options = inr text
    /\ parseBatchLines text = numberLines 0 texts
    /\ (forall chunks : list str,
          concat chunks = text -> LineBuffer.run chunks = numberLines 0 texts)
    /\ (forall b : LineBuffer.t,
          LineBuffer.buffer b = [] ->
          parseStreamRun b (fst (stringifyStream values options)) =
            ({| LineBuffer.buffer := [];
                LineBuffer.lineNumber :=
                  LineBuffer.lineNumber b + Z.of_nat (length texts) |},
             numberLines (LineBuffer.lineNumber b) texts)).
Proof.
  intros H Hone. exists (terminated texts).
  destruct (terminated_read_back texts Hone) as [Hbatch Hstream].
  split; [apply stringifyBatch_texts, H|]. split; [exact Hbatch|]. split.
  - intros chunks E. exact (proj1 (Hstream chunks E)).
  - intros b Hb. rewrite (stringifyStream_texts values options texts H).
    cbn [fst]. exact (proj2 (Hstream _ eq_refl) b Hb).
Qed.

End StringifyFacts.

(** ** The stand-in codec at work *)

Lemma splitLines_nil_iff_witness : splitLines (lit " " ++ [CR; LF; LF]) = [].
Proof.
  apply (proj2 (splitLines_nil_iff (lit " " ++ [CR; LF; LF]))). reflexivity.
Defined.

Lemma stringifyBatch_is_stream_concat_witness :
  JsonLines.stringifyStream str unit sampleStringify (fun _ => true)
    (fun _ => lit "empty") (fun _ => lit "tt") [id1; id2] None
  = ([id1 ++ [LF]; id2 ++ [LF]], None)
  /\ JsonLines.stringifyBatch str unit sampleStringify (fun _ => true)
       (fun _ => lit "empty") (fun _ => lit "tt") [id1; id2] None
     = inr (concat (fst
         (JsonLines.stringifyStream str unit sampleStringify (fun _ => true)
            (fun _ => lit "empty") (fun _ => lit "tt") [id1; id2] None))).
Proof.
  apply (stringifyBatch_is_stream_concat str unit sampleStringify
           (fun _ => true) (fun _ => lit "empty") (fun _ => lit "tt")
           [id1; id2] None [id1; id2]).
  reflexivity.
Defined.

Lemma stringify_first_failure_witness :
  JsonLines.stringifyBatch str unit sampleStringify (fun _ => true)
    (fun _ => lit "empty") (fun _ => lit "tt") [id1; []; id2] None
  = inl (JsonLines.mkParseError unit
           (lit "Failed to stringify JSONL: empty") 1 1 [] (Some tt))
  /\ JsonLines.stringifyStream str unit sampleStringify (fun _ => true)
       (fun _ => lit "empty") (fun _ => lit "tt") [id1; []; id2] None
     = ([id1 ++ [LF]],
        Some (JsonLines.mkParseError unit
                (lit "Failed to stringify value: empty") 1 1 [] (Some tt))).
Proof.
  apply (stringify_first_failure str unit sampleStringify
           (fun _ => true) (fun _ => lit "empty") (fun _ => lit "tt")
           [id1] [] [id2] None [Some id1] tt); reflexivity.
Defined.

Lemma stringify_then_split_witness :
  exists text,
    JsonLines.stringifyBatch str unit sampleStringify (fun _ => true)
      (fun _ => lit "empty") (fun _ => lit "tt") [id1; id2] None = inr text
    /\ parseBatchLines text = [Line.mk id1 1; Line.mk id2 2]
    /\ (forall chunks : list str,
          concat chunks = text ->
          LineBuffer.run chunks = [Line.mk id1 1; Line.mk id2 2])
    /\ (forall b : LineBuffer.t,
          LineBuffer.buffer b = [] ->
          parseStreamRun b
            (fst (JsonLines.stringifyStream str unit sampleStringify
                    (fun _ => true) (fun _ => lit "empty") (fun _ => lit "tt")
                    [id1; id2] None))
          = (LineBuffer.mk [] (LineBuffer.lineNumber b + 2),
             [Line.mk id1 (LineBuffer.lineNumber b + 1);
              Line.mk id2 (LineBuffer.lineNumber b + 1 + 1)])).
Proof.
  apply (stringify_then_split str unit sampleStringify
           (fun _ => true) (fun _ => lit "empty") (fun _ => lit "tt")
           [id1; id2] None [id1; id2]).
  - reflexivity.
  - apply Forall_cons; [|apply Forall_cons; [|apply Forall_nil]];
      (split; [|split]; [| |reflexivity]; vm_compute; intuition discriminate).
Defined.
